(** * find_unused: a shallow embedding of [src/find_unused.py]

    The script collects the exported symbols of a TypeScript source tree
    with three regular expressions ([get_exports]), asks a recursive
    whole-word text search whether each symbol occurs in another file
    ([is_used]) and prints the symbols for which it does not ([main]).

    Python values are modelled as follows.
    - A [str] is a list of characters; a character is its code point,
      restricted to the code points below 256 (the type [ascii]).
    - An exception is a value of [exn]; a call that can raise returns a
      [result].
    - The file system below the scanned directory is a value of type
      [list entry]; the external search is a function returning a
      [search_outcome].
    - Standard output is the list of the arguments of [print], in order. *)

From Stdlib Require Import List Ascii Strings.Byte Bool Arith ZArith Lia.
Import ListNotations.

Set Implicit Arguments.

(** ** Text *)

Definition str := list ascii.

Inductive lstr := lnil | lcons (a : ascii) (l : lstr).

Fixpoint lstr_of_bytes (l : list byte) : lstr :=
  match l with
  | [] => lnil
  | b :: l => lcons (ascii_of_byte b) (lstr_of_bytes l)
  end.

Fixpoint bytes_of_lstr (s : lstr) : list byte :=
  match s with
  | lnil => []
  | lcons a l => byte_of_ascii a :: bytes_of_lstr l
  end.

Declare Scope str_scope.
Delimit Scope str_scope with str.
Bind Scope str_scope with str.
Set Warnings "-via-type-remapping,-via-type-mismatch".
String Notation str lstr_of_bytes bytes_of_lstr
  (via lstr mapping [[nil] => lnil, [cons] => lcons]) : str_scope.
Set Warnings "via-type-remapping,via-type-mismatch".
Open Scope str_scope.

Definition code (c : ascii) : nat := nat_of_ascii c.

Definition in_range (lo hi : nat) (c : ascii) : bool :=
  (lo <=? code c) && (code c <=? hi).

Definition chr_newline : ascii := ascii_of_nat 10.
Definition chr_slash : ascii := "/"%char.

Fixpoint str_eqb (a b : str) : bool :=
  match a, b with
  | [], [] => true
  | x :: a', y :: b' => Ascii.eqb x y && str_eqb a' b'
  | _, _ => false
  end.

(** [s.startswith(p)] *)
Fixpoint startswith (s p : str) {struct p} : bool :=
  match p, s with
  | [], _ => true
  | x :: p', y :: s' => Ascii.eqb x y && startswith s' p'
  | _ :: _, [] => false
  end.

(** [s.endswith(p)] *)
Definition endswith (s p : str) : bool :=
  (length p <=? length s) && str_eqb (skipn (length s - length p) s) p.

(** [s.endswith((p1, p2, ...))] *)
Definition endswith_any (s : str) (ps : list str) : bool :=
  existsb (endswith s) ps.

(** [str.isspace] on one character, which is also [\s] of [re] on [str]
    patterns: the code points below 256 that Unicode classes as white
    space. *)
Definition is_space (c : ascii) : bool :=
  in_range 9 13 c || in_range 28 32 c || (code c =? 133) || (code c =? 160).

(** [[a-zA-Z0-9_]] *)
Definition is_ident (c : ascii) : bool :=
  in_range 97 122 c || in_range 65 90 c || in_range 48 57 c || (code c =? 95).

(** [\w] of [re] on [str] patterns: alphanumeric in the sense of Unicode, or
    the underscore. *)
Definition is_word (c : ascii) : bool :=
  is_ident c
  || (code c =? 170) || (code c =? 178) || (code c =? 179) || (code c =? 181)
  || (code c =? 185) || (code c =? 186) || in_range 188 190 c
  || in_range 192 214 c || in_range 216 246 c || in_range 248 255 c.

Fixpoint dropwhile (f : ascii -> bool) (s : str) : str :=
  match s with
  | [] => []
  | c :: s' => if f c then dropwhile f s' else s
  end.

Definition lstrip (s : str) : str := dropwhile is_space s.
Definition rstrip (s : str) : str := rev (dropwhile is_space (rev s)).

(** [s.strip()] *)
Definition strip (s : str) : str := rstrip (lstrip s).

(** [s.split(sep)] for a separator of one character: the result is never
    empty, and [''.split(sep)] is [['']]. *)
Fixpoint split_on (sep : ascii) (s : str) : list str :=
  match s with
  | [] => [[]]
  | c :: s' =>
      if Ascii.eqb c sep then [] :: split_on sep s'
      else match split_on sep s' with
           | w :: ws => (c :: w) :: ws
           | [] => [[c]]
           end
  end.

(** [sep.join(l)] *)
Fixpoint join_with (sep : str) (l : list str) : str :=
  match l with
  | [] => []
  | [w] => w
  | w :: ws => w ++ sep ++ join_with sep ws
  end.

Definition digit_char (n : nat) : ascii := ascii_of_nat (48 + n).

Fixpoint uint_digits (d : Decimal.uint) : str :=
  match d with
  | Decimal.Nil => []
  | Decimal.D0 d => digit_char 0 :: uint_digits d
  | Decimal.D1 d => digit_char 1 :: uint_digits d
  | Decimal.D2 d => digit_char 2 :: uint_digits d
  | Decimal.D3 d => digit_char 3 :: uint_digits d
  | Decimal.D4 d => digit_char 4 :: uint_digits d
  | Decimal.D5 d => digit_char 5 :: uint_digits d
  | Decimal.D6 d => digit_char 6 :: uint_digits d
  | Decimal.D7 d => digit_char 7 :: uint_digits d
  | Decimal.D8 d => digit_char 8 :: uint_digits d
  | Decimal.D9 d => digit_char 9 :: uint_digits d
  end.

(** [str(n)] for a natural number, as an f-string formats [len(exports)] *)
Definition decimal (n : nat) : str := uint_digits (Nat.to_uint n).

(** ** Regular expressions

    The fragment of Python's [re] syntax that the three patterns use, with
    the backtracking order of [re]: alternatives left to right, a greedy
    repetition longest first, a lazy one shortest first.  There is one
    capturing group. *)

Inductive regex :=
| Lit (s : str)                                     (* literal text *)
| Rep (greedy : bool) (min : nat) (cls : ascii -> bool)
                                (* [cls+], [cls*], [cls*?]: min is 1 or 0 *)
| Bnd                                               (* [\b] *)
| Grp (r : regex)                                   (* [( ... )], group 1 *)
| Alt (r1 r2 : regex)                               (* [r1|r2] *)
| Cat (r1 r2 : regex).                              (* [r1 r2] *)

Definition is_word_opt (c : option ascii) : bool :=
  match c with
  | Some c => is_word c
  | None => false
  end.

(** [\b] holds between [prev] and the head of [inp] when exactly one of them
    is a word character; the ends of the text count as non-word. *)
Definition at_boundary (prev : option ascii) (inp : str) : bool :=
  xorb (is_word_opt prev) (is_word_opt (hd_error inp)).

Fixpoint lit (s : str) (prev : option ascii) (inp : str)
  : option (option ascii * str) :=
  match s with
  | [] => Some (prev, inp)
  | c :: s' =>
      match inp with
      | d :: inp' => if Ascii.eqb c d then lit s' (Some d) inp' else None
      | [] => None
      end
  end.

Section Exec.
Variable R : Type.

(** A continuation receives the character before the current position,
    the rest of the text, the value of group 1 and the text that the
    expression matched. *)
Definition cont := option ascii -> str -> option str -> str -> option R.

(** [taken] is the text that the repetition has consumed so far. *)
Fixpoint rep (greedy : bool) (cls : ascii -> bool) (min : nat)
    (prev : option ascii) (inp : str) (taken : str)
    (k : option ascii -> str -> str -> option R) : option R :=
  if greedy then
    match
      match inp with
      | c :: inp' =>
          if cls c
          then rep greedy cls (pred min) (Some c) inp' (taken ++ [c]) k
          else None
      | [] => None
      end
    with
    | Some x => Some x
    | None => match min with 0 => k prev inp taken | S _ => None end
    end
  else
    match match min with 0 => k prev inp taken | S _ => None end with
    | Some x => Some x
    | None =>
        match inp with
        | c :: inp' =>
            if cls c
            then rep greedy cls (pred min) (Some c) inp' (taken ++ [c]) k
            else None
        | [] => None
        end
    end.

Fixpoint exec (r : regex) (prev : option ascii) (inp : str)
    (g : option str) (k : cont) : option R :=
  match r with
  | Lit s =>
      match lit s prev inp with
      | Some (p, i) => k p i g s
      | None => None
      end
  | Rep greedy min cls =>
      rep greedy cls min prev inp [] (fun p i m => k p i g m)
  | Bnd => if at_boundary prev inp then k prev inp g [] else None
  | Grp r1 => exec r1 prev inp g (fun p i _ m => k p i (Some m) m)
  | Alt r1 r2 =>
      match exec r1 prev inp g k with
      | Some x => Some x
      | None => exec r2 prev inp g k
      end
  | Cat r1 r2 =>
      exec r1 prev inp g
        (fun p i g' m1 =>
           exec r2 p i g' (fun p' i' g'' m2 => k p' i' g'' (m1 ++ m2)))
  end.
End Exec.

(** The match starting at the current position, if there is one: the text
    it covers ([match.group(0)]) and group 1. *)
Definition match_at (r : regex) (prev : option ascii) (inp : str)
  : option (str * option str) :=
  exec r prev inp None (fun _ _ g m => Some (m, g)).

(** [re.finditer]: the matches from left to right, the search resuming
    where the previous match ended; [skip] counts the characters still
    inside the previous match.  The result lists [match.group(1)] of every
    match.  (None of the three patterns matches the empty string; after an
    empty match the scan simply moves on by one character.) *)
Fixpoint scan (r : regex) (prev : option ascii) (inp : str) (skip : nat)
  : list (option str) :=
  match skip with
  | S n =>
      match inp with
      | c :: inp' => scan r (Some c) inp' n
      | [] => []
      end
  | 0 =>
      match match_at r prev inp with
      | Some (m, g) =>
          g :: match inp with
               | c :: inp' => scan r (Some c) inp' (length m - 1)
               | [] => []
               end
      | None =>
          match inp with
          | c :: inp' => scan r (Some c) inp' 0
          | [] => []
          end
      end
  end.

Definition finditer (pattern : regex) (content : str) : list (option str) :=
  scan pattern None content 0.

Definition cat (rs : list regex) : regex :=
  fold_right Cat (Lit "") rs.

Definition not_rbrace (c : ascii) : bool := negb (Ascii.eqb c "}"%char).

(** [export\s+(?:const|function|class|type|interface|enum)\s+([a-zA-Z0-9_]+)] *)
Definition pattern_decl : regex :=
  cat [Lit "export"; Rep true 1 is_space;
       Alt (Lit "const") (Alt (Lit "function") (Alt (Lit "class")
         (Alt (Lit "type") (Alt (Lit "interface") (Lit "enum")))));
       Rep true 1 is_space; Grp (Rep true 1 is_ident)].

(** [export\s+default\s+([a-zA-Z0-9_]+)] *)
Definition pattern_default : regex :=
  cat [Lit "export"; Rep true 1 is_space; Lit "default";
       Rep true 1 is_space; Grp (Rep true 1 is_ident)].

(** [export\s+{[^}]*?\b([a-zA-Z0-9_]+)\b[^}]*?}] *)
Definition pattern_braces : regex :=
  cat [Lit "export"; Rep true 1 is_space; Lit "{"; Rep false 0 not_rbrace;
       Bnd; Grp (Rep true 1 is_ident); Bnd; Rep false 0 not_rbrace; Lit "}"].

Definition patterns : list regex :=
  [pattern_decl; pattern_default; pattern_braces].

(** ** Paths: [os.path] on POSIX *)

(** [os.path.join(a, b)] *)
Definition path_join (a b : str) : str :=
  if startswith b "/" then b
  else if (match a with [] => true | _ => false end) || endswith a "/"
       then a ++ b
       else a ++ "/" ++ b.

(** One step of the loop of [os.path.normpath] over the components. *)
Definition norm_step (initial_slashes : nat) (new_comps : list str)
    (comp : str) : list str :=
  if str_eqb comp "" || str_eqb comp "." then new_comps
  else if negb (str_eqb comp "..")
          || ((initial_slashes =? 0)
              && match new_comps with [] => true | _ => false end)
          || match rev new_comps with
             | last :: _ => str_eqb last ".."
             | [] => false
             end
       then new_comps ++ [comp]
       else removelast new_comps.

(** The variable [initial_slashes] of [os.path.normpath]: POSIX gives a
    meaning of its own to exactly two leading slashes. *)
Definition initial_slashes (path : str) : nat :=
  if startswith path "/" then
    if startswith path "//" && negb (startswith path "///") then 2 else 1
  else 0.

(** [os.path.normpath(path)] *)
Definition normpath (path : str) : str :=
  match path with
  | [] => "."
  | _ =>
      let comps := fold_left (norm_step (initial_slashes path))
                     (split_on chr_slash path) [] in
      let path' := repeat chr_slash (initial_slashes path)
                   ++ join_with "/" comps in
      match path' with
      | [] => "."
      | _ => path'
      end
  end.

Section Paths.
(** [os.getcwd()] *)
Variable cwd : str.

(** [os.path.abspath(path)] *)
Definition abspath (path : str) : str :=
  normpath (if startswith path "/" then path else path_join cwd path).
End Paths.

(** ** Exceptions *)

Inductive exn :=
| OSError              (* a file cannot be opened or read; the search tool
                          cannot be started *)
| UnicodeDecodeError.  (* [bytes.decode()] on output that is not UTF-8 *)

Inductive result (A : Type) :=
| Ok (a : A)
| Raise (e : exn).

Arguments Ok {A} a.
Arguments Raise {A} e.

(** ** The file system below the scanned directory *)

(** What [open(path, 'r', errors='ignore')] followed by [f.read()] gives:
    the text of the file, undecodable bytes dropped, or an [OSError]. *)
Inductive read_result :=
| Text (content : str)
| Unreadable.

#[warnings="-register-all"]
Inductive entry :=
| File (name : str) (data : read_result)
| Dir (name : str) (children : list entry).

(** The [files] component that [os.walk] yields for a directory: its
    entries that are not directories, in the order of the listing. *)
Fixpoint files_of (entries : list entry) : list (str * read_result) :=
  match entries with
  | [] => []
  | File name data :: rest => (name, data) :: files_of rest
  | Dir _ _ :: rest => files_of rest
  end.

(** [os.walk], top down: a directory is yielded before its
    sub-directories, which are visited in the order of the listing. *)
Fixpoint walk_entry (top : str) (e : entry)
  : list (str * list (str * read_result)) :=
  match e with
  | File _ _ => []
  | Dir name children =>
      let root := path_join top name in
      (root, files_of children) :: flat_map (walk_entry root) children
  end.

Definition os_walk (top : str) (entries : list entry)
  : list (str * list (str * read_result)) :=
  (top, files_of entries) :: flat_map (walk_entry top) entries.

(** ** The export collector *)

Definition record : Type := str * str.   (* (path, name) *)

(** The test of line 16 on a file name. *)
Definition eligible (file : str) : bool :=
  endswith_any file [".ts"; ".tsx"]
  && negb (endswith file ".test.ts") && negb (endswith file ".test.tsx").

(** Lines 20 to 25: the records one file contributes, pattern by pattern. *)
Definition file_exports (path content : str) : list record :=
  flat_map
    (fun pattern =>
       flat_map
         (fun group1 =>
            match group1 with
            | Some ((_ :: _) as name) => [(path, name)]
            | _ => []
            end)
         (finditer pattern content))
    patterns.

(** The loop of line 15 over the files of one directory. *)
Fixpoint collect_files (root : str) (files : list (str * read_result))
    (exports : list record) : result (list record) :=
  match files with
  | [] => Ok exports
  | (file, data) :: rest =>
      if eligible file then
        let path := path_join root file in
        match data with
        | Text content =>
            collect_files root rest (exports ++ file_exports path content)
        | Unreadable => Raise OSError
        end
      else collect_files root rest exports
  end.

(** The loop of line 14 over what [os.walk] yields. *)
Fixpoint collect_dirs (dirs : list (str * list (str * read_result)))
    (exports : list record) : result (list record) :=
  match dirs with
  | [] => Ok exports
  | (root, files) :: rest =>
      match collect_files root files exports with
      | Ok exports' => collect_dirs rest exports'
      | Raise e => Raise e
      end
  end.

Section Program.
(** The entries of the directory that is scanned, the current directory
    and the external search: [search name directory] is the outcome of
    lines 33 and 34, running [grep -r -l \bname\b directory] and decoding
    what it printed. *)
Variable tree : list entry.
Variable cwd : str.

Inductive search_outcome :=
| Output (output : str)               (* exit status 0 *)
| CalledProcessError (returncode : Z) (* non-zero exit status *)
| Failure (e : exn).                  (* any other exception *)

Variable search : str -> str -> search_outcome.

Definition get_exports (directory : str) : result (list record) :=
  collect_dirs (os_walk directory tree) [].

(** ** The usage checker *)

(** Lines 35 to 39: the paths left of the output of the search. *)
Definition usages_of (output definition_file : str) : list str :=
  let files := split_on chr_newline (strip output) in
  let usages :=
    filter (fun f => negb (str_eqb (abspath cwd f)
                                   (abspath cwd definition_file))) files in
  filter (fun f => negb (endswith_any f [".test.ts"; ".test.tsx"])) usages.

Definition is_used (name definition_file directory : str) : result bool :=
  match search name directory with
  | Output output => Ok (0 <? length (usages_of output definition_file))
  | CalledProcessError _ => Ok false
  | Failure e => Raise e
  end.
End Program.

(** ** Standard output and exceptions *)

(** A computation that prints and may raise: it receives the lines printed
    so far and returns them extended, with its value or the exception that
    stopped it. *)
Definition io (A : Type) : Type := list str -> result A * list str.

Definition ret {A : Type} (a : A) : io A := fun out => (Ok a, out).

Definition bind {A B : Type} (m : io A) (f : A -> io B) : io B :=
  fun out =>
    match m out with
    | (Ok a, out') => f a out'
    | (Raise e, out') => (Raise e, out')
    end.

Definition lift {A : Type} (r : result A) : io A := fun out => (r, out).

(** [print(s)] *)
Definition print (s : str) : io unit := fun out => (Ok tt, out ++ [s]).

Declare Scope io_scope.
Delimit Scope io_scope with io.
Notation "x <- m ;; f" := (bind m (fun x => f))
  (at level 61, m at next level, right associativity) : io_scope.
Notation "m ;; f" := (bind m (fun _ => f))
  (at level 61, right associativity) : io_scope.

(** ** Reporting *)

(** [name in ('default', 'interface', 'type', 'const', 'function', 'class')] *)
Definition is_keyword (name : str) : bool :=
  existsb (str_eqb name)
    ["default"; "interface"; "type"; "const"; "function"; "class"].

Definition notice (r : record) : str :=
  "Potentially unused: " ++ snd r ++ " in " ++ fst r.

Definition summary_line (r : record) : str := fst r ++ ": " ++ snd r.

Definition summary_header : str := "
--- Summary ---".

Section Main.
Variable tree : list entry.
Variable cwd : str.
Variable search : str -> str -> search_outcome.

Open Scope io_scope.

(** The loop of lines 51 to 56. *)
Fixpoint check_exports (src_dir : str) (exports unused : list record)
  : io (list record) :=
  match exports with
  | [] => ret unused
  | (path, name) :: rest =>
      if is_keyword name then check_exports src_dir rest unused
      else
        used <- lift (is_used cwd search name path src_dir) ;;
        if negb used then
          let unused := unused ++ [(path, name)] in
          print (notice (path, name)) ;;
          check_exports src_dir rest unused
        else check_exports src_dir rest unused
  end.

(** The loop of lines 61 and 62. *)
Fixpoint print_summary (unused : list record) : io unit :=
  match unused with
  | [] => ret tt
  | r :: rest => print (summary_line r) ;; print_summary rest
  end.

Definition main : io unit :=
  let src_dir := "src" in
  print ("Scanning " ++ src_dir ++ " for exports...") ;;
  exports <- lift (get_exports tree src_dir) ;;
  print ("Found " ++ decimal (length exports)
         ++ " exports. Checking usage...") ;;
  unused <- check_exports src_dir exports [] ;;
  print summary_header ;;
  match unused with
  | [] => print "No unused exports found."
  | _ :: _ => ret tt
  end ;;
  print_summary unused.
End Main.

(** ** The external search

    The search is not part of the program: [is_used] and [main] take it as
    a parameter.  For the statements that depend on what the tool answers,
    here is a model of [grep -r -l PATTERN DIRECTORY] as the specification
    describes the facility and GNU grep documents it: every regular file
    below the directory is searched, in the order of the directory
    listings; the path of each file with a match is printed on a line of
    its own; the exit status is 0 when some file matched, 1 when none did
    and 2 when a file could not be read.

    Which files hold a match of [\bname\b] is decided by the tool, from the
    bytes of the files and the word characters of its locale, and not by
    the program: the model takes it as the parameter [mentions]. *)

Fixpoint grep_files (dir : str) (e : entry) : list (str * read_result) :=
  match e with
  | File name data => [(path_join dir name, data)]
  | Dir name children => flat_map (grep_files (path_join dir name)) children
  end.

Definition all_files (directory : str) (tree : list entry)
  : list (str * read_result) :=
  flat_map (grep_files directory) tree.

Definition unreadable (f : str * read_result) : bool :=
  match snd f with
  | Unreadable => true
  | Text _ => false
  end.

Section Search.
Variable mentions : str -> str * read_result -> bool.

Definition grep (tree : list entry) (name directory : str)
  : search_outcome :=
  let files := all_files directory tree in
  if existsb unreadable files then CalledProcessError 2
  else
    match filter (mentions name) files with
    | [] => CalledProcessError 1
    | hits => Output (concat (map (fun f => fst f ++ "
") hits))
    end.
End Search.

(** The files of the sample trees are ASCII text: there the text that
    Python reads is the bytes of the file, and the word characters are the
    letters, the digits and the underscore whatever the locale.  On such
    a text, [name] occurs with no word character next to it on either
    side; [prev] is the character before [text]. *)
Definition is_ident_opt (c : option ascii) : bool :=
  match c with
  | Some x => is_ident x
  | None => false
  end.

Fixpoint ascii_word (name : str) (prev : option ascii) (text : str)
  : bool :=
  (negb (is_ident_opt prev) && startswith text name
   && negb (is_ident_opt (hd_error (skipn (length name) text))))
  || match text with
     | c :: text' => ascii_word name (Some c) text'
     | [] => false
     end.

Definition sample_mentions (name : str) (f : str * read_result) : bool :=
  match snd f with
  | Text content => ascii_word name None content
  | Unreadable => false
  end.

Definition sample_tree : list entry :=
  [ File "a.ts" (Text "export const Foo = 1;
export { Bar as Baz }");
    Dir "lib" [ File "b.tsx" (Text "import { Bar } from '../a';
export default Widget");
                File "b.test.tsx" (Text "Widget Foo") ];
    File "notes.md" (Text "type") ].

(** ** Vocabulary of the statements *)

(** The records that the files of one directory contribute when every
    eligible file can be read. *)
Definition exports_of_files (root : str) (files : list (str * read_result))
  : list record :=
  flat_map
    (fun f =>
       if eligible (fst f) then
         match snd f with
         | Text content => file_exports (path_join root (fst f)) content
         | Unreadable => []
         end
       else [])
    files.

Definition exports_of_dirs (dirs : list (str * list (str * read_result)))
  : list record :=
  flat_map (fun d => exports_of_files (fst d) (snd d)) dirs.

(** Every eligible file of the listing can be read. *)
Definition sources_readable (files : list (str * read_result)) : Prop :=
  forall file, In (file, Unreadable) files -> eligible file = false.

Definition tree_readable (tree : list entry) (directory : str) : Prop :=
  forall root files,
    In (root, files) (os_walk directory tree) -> sources_readable files.

(** The record is checked and the check says "not used". *)
Definition flagged (cwd : str) (search : str -> str -> search_outcome)
    (src_dir : str) (r : record) : bool :=
  negb (is_keyword (snd r))
  && match is_used cwd search (snd r) (fst r) src_dir with
     | Ok false => true
     | _ => false
     end.

(** No check of a record of the list raises. *)
Definition checks_return (cwd : str) (search : str -> str -> search_outcome)
    (src_dir : str) (exports : list record) : Prop :=
  forall r, In r exports -> is_keyword (snd r) = false ->
            exists b, is_used cwd search (snd r) (fst r) src_dir = Ok b.

Definition record_eqb (a b : record) : bool :=
  str_eqb (fst a) (fst b) && str_eqb (snd a) (snd b).

(** How many times a record occurs in a list. *)
Definition occurrences (r : record) (l : list record) : nat :=
  length (filter (record_eqb r) l).

(** What [main] prints after the two progress lines when it runs to the
    end with the list [unused]. *)
Definition report (unused : list record) : list str :=
  map notice unused ++ [summary_header]
  ++ match unused with
     | [] => ["No unused exports found."]
     | _ :: _ => []
     end
  ++ map summary_line unused.

Definition progress (n : nat) : list str :=
  ["Scanning src for exports...";
   "Found " ++ decimal n ++ " exports. Checking usage..."].

(** The paths that [is_used] reads from the output of a successful search:
    the files the search matched. *)
Definition matched_files (output : str) : list str :=
  split_on chr_newline (strip output).

Definition is_test_path (f : str) : bool :=
  endswith_any f [".test.ts"; ".test.tsx"].

(** The search never ends in an exception other than
    [CalledProcessError]. *)
Definition search_runs (search : str -> str -> search_outcome) : Prop :=
  forall name directory e, search name directory <> Failure e.

Definition unreadable_tree : list entry := [ File "a.ts" Unreadable ].

Definition aliased_tree : list entry :=
  [ File "a.ts" (Text "export { Bar as Baz }") ].

Definition duplicate_tree : list entry :=
  [ File "a.ts" (Text "export const A = 1; export { A }") ].

Definition no_grep (name directory : str) : search_outcome :=
  Failure OSError.

Definition locked_tree : list entry :=
  [ File "a.ts" (Text "export const Foo = 1;"); File "blob.bin" Unreadable ].

Definition plain_tree : list entry := [ File "a.ts" (Text "let x = 1;") ].

(** Every file and directory name of the entry satisfies [P]. *)
Fixpoint names_ok (P : str -> bool) (e : entry) : bool :=
  match e with
  | File name _ => P name
  | Dir name children => P name && forallb (names_ok P) children
  end.

(** What a file system allows as the name of an entry: not empty, not
    [.] or [..], no slash. *)
Definition valid_name (n : str) : bool :=
  negb (str_eqb n "") && negb (str_eqb n ".") && negb (str_eqb n "..")
  && forallb (fun c => negb (Ascii.eqb c chr_slash)) n.

Definition valid_tree (tree : list entry) : bool :=
  forallb (names_ok valid_name) tree.



(** The components of the normalised current directory, and its leading
    slashes. *)
Definition cwd_stack (cwd : str) : list str :=
  fold_left (norm_step (initial_slashes cwd)) (split_on chr_slash cwd) [].

Definition cwd_root (cwd : str) : str :=
  repeat chr_slash (initial_slashes cwd).

(** A search that succeeds and prints nothing. *)
Definition silent (name directory : str) : search_outcome := Output "".

(** The text is not empty and does not begin, or end, with white space. *)
Definition starts_clean (s : str) : Prop :=
  exists c t, s = c :: t /\ is_space c = false.

Definition ends_clean (s : str) : Prop :=
  exists t c, s = t ++ [c] /\ is_space c = false.

Definition begins_with_text (s : str) : bool :=
  match s with
  | c :: _ => negb (is_space c)
  | [] => false
  end.

Definition ends_with_text (s : str) : bool := begins_with_text (rev s).

(** A path without a line break. *)
Definition no_line_break (f : str) : bool :=
  forallb (fun c => negb (Ascii.eqb c chr_newline)) f.

(** The output of a search that matched the given paths: each path on a
    line of its own, as [grep -l] prints them. *)
Definition lines (paths : list str) : str :=
  concat (map (fun s => s ++ "
") paths).

(** Paths that stay whole when the output is stripped and cut into lines:
    there is one at least, none holds a line break, the first does not
    begin with white space and the last does not end with it. *)
Definition whole_lines (hits : list str) : bool :=
  match hits with
  | [] => false
  | first :: _ =>
      begins_with_text first && ends_with_text (last hits [])
      && forallb no_line_break hits
  end.



Definition newline_tree : list entry :=
  [ Dir "old
new" [ File "a.ts" (Text "export const Foo = 1;") ] ].

Definition trailing_space_tree : list entry :=
  [ File "a.ts" (Text "export const Foo = 1;");
    File "b.test.ts " (Text "console.log(Foo);") ].


(** A name that [[a-zA-Z0-9_]+] matches. *)
Definition ident_name (n : str) : Prop :=
  n <> [] /\ forallb is_ident n = true.

(** Group 1, when it is set, holds such a name. *)
Definition group_ok (g : option str) : Prop :=
  match g with
  | None => True
  | Some n => ident_name n
  end.

(** Every group of the expression is [([a-zA-Z0-9_]+)]. *)
Fixpoint captures_ident (r : regex) : Prop :=
  match r with
  | Grp (Rep _ (S _) cls) => cls = is_ident
  | Grp _ => False
  | Alt r1 r2 | Cat r1 r2 => captures_ident r1 /\ captures_ident r2
  | _ => True
  end.

(** A path component that is a valid name. *)
Definition comp_ok (c : str) : Prop := valid_name c = true.

(** [p] is the path of a file, with data [d], of one of the directories
    that [os.walk] yields. *)
Definition walked (dirs : list (str * list (str * read_result)))
    (p : str) (d : read_result) : Prop :=
  exists root files f,
    In (root, files) dirs /\ In (f, d) files /\ p = path_join root f.

(** The path begins with the [s] of [src]. *)
Definition under_src (path : str) : Prop := exists t, path = "s"%char :: t.

Definition keyword_tree : list entry :=
  [ File "k.ts" (Text "export default function run() {}") ].

(** ** Vocabulary of the further properties *)

(** No file of a walked directory passes the test of line 16. *)
Definition no_eligible_file (tree : list entry) (directory : str) : Prop :=
  forall root files file data,
    In (root, files) (os_walk directory tree) -> In (file, data) files ->
    eligible file = false.

(** The files of a listing that pass the test of line 16. *)
Definition eligible_only (files : list (str * read_result))
  : list (str * read_result) :=
  filter (fun f => eligible (fst f)) files.

(** Some eligible file of a walked directory cannot be read. *)
Definition some_source_unreadable (tree : list entry) (directory : str)
  : Prop :=
  exists root files file,
    In (root, files) (os_walk directory tree)
    /\ In (file, Unreadable) files /\ eligible file = true.

Definition docs_tree : list entry :=
  [ File "README.md" (Text "export const Doc = 1;");
    File "a.test.ts" Unreadable;
    Dir "img" [ File "logo.png" Unreadable ] ].

Definition half_locked_tree : list entry :=
  [ File "a.ts" (Text "export const Foo = 1;");
    Dir "lib" [ File "b.ts" Unreadable ] ].

(** A search that answers like [grep] on the sample tree for the three
    names collected there, and cannot be started for any other request. *)
Definition picky (name directory : str) : search_outcome :=
  if existsb (str_eqb name) ["Foo"; "Bar"; "Widget"] && str_eqb directory "src"
  then grep sample_mentions sample_tree name directory
  else Failure OSError.

(** A search that cannot be started for [Bar] and finds nothing else. *)
Definition bar_breaks (name directory : str) : search_outcome :=
  if str_eqb name "Bar" then Failure OSError else CalledProcessError 1.

(** The number of positions of the text at which [export] begins. *)
Fixpoint export_starts (s : str) : nat :=
  (if startswith s "export" then 1 else 0)
  + match s with
    | [] => 0
    | _ :: t => export_starts t
    end.

(** The value of group 1, when set, lies within the text [m]. *)
Definition group_within (m : str) (g : option str) : Prop :=
  match g with
  | None => True
  | Some n => exists a b, m = a ++ n ++ b
  end.

(** What the collector gives for one entry of the scanned directory: the
    records of a sub-directory, collected under its own path, and nothing
    for a file, whose records belong to the listing of its directory. *)
Definition collected_below (directory : str) (e : entry) (sub : list record)
  : Prop :=
  match e with
  | Dir name children =>
      get_exports children (path_join directory name) = Ok sub
  | File _ _ => sub = []
  end.

(** A relative path made of valid names, as [os.walk] builds it and the
    search prints it. *)
Definition plain_path (p : str) : Prop :=
  exists cs, cs <> [] /\ Forall comp_ok cs /\ p = join_with "/" cs.

(** The test that [is_used] amounts to on plain paths. *)
Definition other_source (definition_file f : str) : bool :=
  negb (str_eqb f definition_file) && negb (is_test_path f).

Definition lists_two (name directory : str) : search_outcome :=
  Output "src/a.ts
src/lib/b.tsx
".

Definition lists_dotted (name directory : str) : search_outcome :=
  Output "./src/a.ts
".

(** * Properties *)

(** ** The embedding on sample inputs *)

Example finditer_decl :
  finditer pattern_decl "export const Foo = 1; export  function
 bar() {}" = [Some "Foo"; Some "bar"].
Proof. vm_compute. reflexivity. Qed.

Example finditer_braces_first_only :
  finditer pattern_braces "export { Bar as Baz } export {} x } export {A}"
  = [Some "Bar"; Some "A"].
Proof. vm_compute. reflexivity. Qed.

Example file_exports_dup :
  file_exports "src/a.ts" "export const A = 1; export { A }"
  = [("src/a.ts", "A"); ("src/a.ts", "A")].
Proof. vm_compute. reflexivity. Qed.

Example abspath_ex :
  abspath "/work" "src//a/../b.ts" = "/work/src/b.ts"
  /\ abspath "/work" "" = "/work" /\ abspath "/" "..//x/" = "/x".
Proof. vm_compute. auto. Qed.

Example sample_run :
  main sample_tree "/work" (grep sample_mentions sample_tree) []
  = (Ok tt,
     ["Scanning src for exports...";
      "Found 3 exports. Checking usage...";
      "Potentially unused: Foo in src/a.ts";
      "Potentially unused: Widget in src/lib/b.tsx";
      "
--- Summary ---";
      "src/a.ts: Foo";
      "src/lib/b.tsx: Widget"]).
Proof. vm_compute. reflexivity. Qed.

(** ** Text *)

Lemma str_eqb_eq (a b : str) : str_eqb a b = true <-> a = b.
Proof.
  revert b; induction a as [|x a IH]; intros [|y b]; simpl;
    try (split; [discriminate | congruence]); try tauto.
  rewrite andb_true_iff, Ascii.eqb_eq, IH.
  split; [intros [-> ->]; reflexivity | intros H; inversion H; auto].
Qed.

Lemma str_eqb_refl (a : str) : str_eqb a a = true.
Proof. apply str_eqb_eq; reflexivity. Qed.

Lemma str_eqb_neq (a b : str) : str_eqb a b = false <-> a <> b.
Proof.
  rewrite <- str_eqb_eq. destruct (str_eqb a b); split; congruence.
Qed.

Lemma startswith_spec (s p : str) :
  startswith s p = true <-> exists t, s = p ++ t.
Proof.
  revert s; induction p as [|x p IH]; intros s; simpl.
  - split; [intros _; exists s; reflexivity | reflexivity].
  - destruct s as [|y s].
    + split; [discriminate | intros [t H]; discriminate].
    + rewrite andb_true_iff, Ascii.eqb_eq, IH. split.
      * intros [-> [t ->]]. exists t; reflexivity.
      * intros [t H]. inversion H; subst. split; [reflexivity | eauto].
Qed.

Lemma startswith_app (p t : str) : startswith (p ++ t) p = true.
Proof. apply startswith_spec; eauto. Qed.

Lemma endswith_spec (s p : str) :
  endswith s p = true <-> exists t, s = t ++ p.
Proof.
  unfold endswith. rewrite andb_true_iff, Nat.leb_le, str_eqb_eq. split.
  - intros [Hle H]. exists (firstn (length s - length p) s).
    pose proof (firstn_skipn (length s - length p) s) as E.
    rewrite H in E. symmetry; exact E.
  - intros [t ->]. rewrite length_app. split; [lia|].
    replace (length t + length p - length p) with (length t) by lia.
    rewrite skipn_app, skipn_all, Nat.sub_diag. reflexivity.
Qed.

Lemma endswith_app (t p : str) : endswith (t ++ p) p = true.
Proof. apply endswith_spec; eauto. Qed.

(** A suffix without a slash lies within the last component of a path. *)
Lemma endswith_last_component (a b s : str) :
  ~ In chr_slash s ->
  endswith (a ++ chr_slash :: b) s = endswith b s.
Proof.
  intros Hs.
  destruct (endswith b s) eqn:E.
  - apply endswith_spec in E as [t ->]. apply endswith_spec.
    exists (a ++ chr_slash :: t). rewrite <- app_assoc. reflexivity.
  - destruct (endswith (a ++ chr_slash :: b) s) eqn:E'; [|reflexivity].
    exfalso. apply endswith_spec in E' as [t Ht].
    change (a ++ chr_slash :: b) with (a ++ [chr_slash] ++ b) in Ht.
    rewrite app_assoc in Ht.
    apply app_eq_app in Ht as [l [[H1 H2]|[H1 H2]]].
    + destruct (exists_last (l := l)) as [l' [z ->]].
      * intros ->. simpl in H2. subst s.
        pose proof (endswith_app [] b) as X. simpl in X. congruence.
      * rewrite app_assoc in H1. apply app_inj_tail in H1 as [_ <-].
        apply Hs. subst s. rewrite in_app_iff, in_app_iff. simpl. auto.
    + subst b. rewrite endswith_app in E. discriminate.
Qed.

(** ** What the patterns capture *)

Lemma lit_sound s prev inp p i :
  lit s prev inp = Some (p, i) -> inp = s ++ i.
Proof.
  revert prev inp; induction s as [|c s IH]; intros prev inp H; simpl in H.
  - inversion H; reflexivity.
  - destruct inp as [|d inp]; [discriminate|].
    destruct (Ascii.eqb c d) eqn:E; [|discriminate].
    apply Ascii.eqb_eq in E; subst d. simpl. f_equal. eauto.
Qed.

Lemma rep_sound (R : Type) greedy cls min prev inp taken
    (k : option ascii -> str -> str -> option R) x :
  rep greedy cls min prev inp taken k = Some x ->
  exists m i p,
    inp = m ++ i /\ forallb cls m = true /\ min <= length m
    /\ k p i (taken ++ m) = Some x.
Proof.
  revert min prev taken x.
  induction inp as [|c inp IH]; intros min prev taken x H.
  - exists [], [], prev. rewrite (app_nil_r taken). simpl in H.
    destruct greedy, min; simpl in H; try discriminate;
      repeat split; auto;
      destruct (k prev [] taken); inversion H; reflexivity.
  - assert (Hstop : forall y,
      match min with 0 => k prev (c :: inp) taken | S _ => None end
      = Some y ->
      exists m i p, c :: inp = m ++ i /\ forallb cls m = true
                    /\ min <= length m /\ k p i (taken ++ m) = Some y).
    { intros y Hy. destruct min; [|discriminate].
      exists [], (c :: inp), prev. rewrite (app_nil_r taken). auto. }
    assert (Hmore : forall y,
      (if cls c
       then rep greedy cls (pred min) (Some c) inp (taken ++ [c]) k
       else None) = Some y ->
      exists m i p, c :: inp = m ++ i /\ forallb cls m = true
                    /\ min <= length m /\ k p i (taken ++ m) = Some y).
    { intros y Hy. destruct (cls c) eqn:Ec; [|discriminate].
      apply IH in Hy as (m & i & p & -> & Hm & Hl & Hk).
      exists (c :: m), i, p. simpl. rewrite Ec, Hm.
      rewrite <- app_assoc in Hk. repeat split; auto. lia. }
    simpl in H. destruct greedy.
    + destruct (if cls c
                then rep true cls (pred min) (Some c) inp (taken ++ [c]) k
                else None) eqn:E.
      * inversion H; subst. apply Hmore; assumption.
      * apply Hstop; assumption.
    + destruct (match min with
                | 0 => k prev (c :: inp) taken
                | S _ => None
                end) eqn:E.
      * inversion H; subst. apply Hstop; reflexivity.
      * apply Hmore; assumption.
Qed.

Ltac continue_with :=
  do 4 eexists; (split; [|eassumption]); assumption.

Lemma exec_group (R : Type) r :
  captures_ident r ->
  forall prev inp g (k : cont R) x,
    group_ok g -> exec r prev inp g k = Some x ->
    exists p i g' m, group_ok g' /\ k p i g' m = Some x.
Proof.
  induction r as [s|greedy min cls| |r IH|r1 IH1 r2 IH2|r1 IH1 r2 IH2];
    intros Hc prev inp g k x Hg H; simpl in H.
  - destruct (lit s prev inp) as [[p i]|]; [|discriminate]. continue_with.
  - apply rep_sound in H as (m & i & p & _ & _ & _ & Hk). continue_with.
  - destruct (at_boundary prev inp); [|discriminate]. continue_with.
  - destruct r as [|greedy min cls| | | |]; simpl in Hc; try contradiction.
    destruct min as [|min]; [contradiction|]. subst cls. simpl in H.
    apply rep_sound in H as (m & i & p & -> & Hm & Hl & Hk).
    simpl in Hk. exists p, i, (Some m), m. split; [|assumption].
    split; [|assumption]. intros ->. simpl in Hl. lia.
  - destruct Hc as [Hc1 Hc2].
    destruct (exec r1 prev inp g k) eqn:E.
    + inversion H; subst. eapply IH1; eauto.
    + eapply IH2; eauto.
  - destruct Hc as [Hc1 Hc2].
    apply IH1 in H as (p & i & g' & m1 & Hg' & H'); auto.
    apply IH2 in H' as (p' & i' & g'' & m2 & Hg'' & H''); auto.
    continue_with.
Qed.

Lemma match_at_group r prev inp m g :
  captures_ident r -> match_at r prev inp = Some (m, g) -> group_ok g.
Proof.
  intros Hc H. unfold match_at in H.
  apply exec_group in H as (p & i & g' & m' & Hg' & H'); simpl; auto.
  inversion H'; subst; assumption.
Qed.

Lemma scan_group r :
  captures_ident r ->
  forall inp prev skip, Forall group_ok (scan r prev inp skip).
Proof.
  intros Hc. induction inp as [|c inp IH]; intros prev skip.
  - destruct skip; simpl; [|constructor].
    destruct (match_at r prev []) as [[m g]|] eqn:E; constructor.
    + eapply match_at_group; eauto.
    + constructor.
  - destruct skip; simpl; [|apply IH].
    destruct (match_at r prev (c :: inp)) as [[m g]|] eqn:E.
    + constructor; [eapply match_at_group; eauto | apply IH].
    + apply IH.
Qed.

Lemma patterns_capture_ident : Forall captures_ident patterns.
Proof. repeat constructor. Qed.

Lemma file_exports_sound path content p n :
  In (p, n) (file_exports path content) -> p = path /\ ident_name n.
Proof.
  unfold file_exports. rewrite in_flat_map.
  intros (r & Hr & H). rewrite in_flat_map in H.
  destruct H as (g & Hg & H).
  assert (Hok : group_ok g).
  { pose proof patterns_capture_ident as Hp.
    rewrite Forall_forall in Hp.
    pose proof (@scan_group r (Hp r Hr) content None 0) as Hs.
    rewrite Forall_forall in Hs. apply Hs. exact Hg. }
  destruct g as [[|c m]|]; simpl in H; try contradiction.
  destruct H as [H|[]]. inversion H; subst. auto.
Qed.

(** ** The export collector *)

Lemma collect_files_ok root files acc l :
  collect_files root files acc = Ok l ->
  l = acc ++ exports_of_files root files.
Proof.
  revert acc; induction files as [|[file data] files IH]; intros acc H;
    simpl in H.
  - inversion H. symmetry; apply app_nil_r.
  - unfold exports_of_files; simpl. fold (exports_of_files root files).
    destruct (eligible file).
    + destruct data as [content|]; [|discriminate].
      apply IH in H. rewrite H, app_assoc. reflexivity.
    + apply IH in H. exact H.
Qed.

Lemma collect_files_total root files acc :
  sources_readable files ->
  collect_files root files acc = Ok (acc ++ exports_of_files root files).
Proof.
  revert acc; induction files as [|[file data] files IH]; intros acc Hr;
    simpl.
  - rewrite app_nil_r. reflexivity.
  - assert (Hr' : sources_readable files)
      by (intros f Hf; apply Hr; right; exact Hf).
    unfold exports_of_files; simpl. fold (exports_of_files root files).
    destruct (eligible file) eqn:E.
    + destruct data as [content|].
      * rewrite IH by assumption. rewrite app_assoc. reflexivity.
      * rewrite (Hr file) in E by (left; reflexivity). discriminate.
    + apply IH; assumption.
Qed.

Lemma collect_dirs_ok dirs acc l :
  collect_dirs dirs acc = Ok l -> l = acc ++ exports_of_dirs dirs.
Proof.
  revert acc; induction dirs as [|[root files] dirs IH]; intros acc H;
    simpl in H.
  - inversion H. symmetry; apply app_nil_r.
  - destruct (collect_files root files acc) as [acc'|e] eqn:E;
      [|discriminate].
    apply collect_files_ok in E. apply IH in H. subst.
    unfold exports_of_dirs; simpl. rewrite app_assoc. reflexivity.
Qed.

Lemma collect_dirs_total dirs acc :
  (forall root files, In (root, files) dirs -> sources_readable files) ->
  collect_dirs dirs acc = Ok (acc ++ exports_of_dirs dirs).
Proof.
  revert acc; induction dirs as [|[root files] dirs IH]; intros acc Hr;
    simpl.
  - rewrite app_nil_r. reflexivity.
  - rewrite collect_files_total by (eapply Hr; left; reflexivity).
    rewrite IH by (intros r f Hf; eapply Hr; right; exact Hf).
    unfold exports_of_dirs; simpl. rewrite app_assoc. reflexivity.
Qed.

Lemma get_exports_ok tree directory l :
  get_exports tree directory = Ok l ->
  l = exports_of_dirs (os_walk directory tree).
Proof. intros H. apply collect_dirs_ok in H. exact H. Qed.

Lemma get_exports_total tree directory :
  tree_readable tree directory ->
  get_exports tree directory = Ok (exports_of_dirs (os_walk directory tree)).
Proof. intros H. unfold get_exports. rewrite collect_dirs_total; auto. Qed.

(** A collected record comes from an eligible, readable file of a walked
    directory. *)
Lemma in_exports_of_dirs dirs p n :
  In (p, n) (exports_of_dirs dirs) <->
  exists root files file content,
    In (root, files) dirs /\ In (file, Text content) files
    /\ eligible file = true
    /\ In (p, n) (file_exports (path_join root file) content).
Proof.
  unfold exports_of_dirs, exports_of_files. rewrite in_flat_map. split.
  - intros ([root files] & Hd & H). simpl in H. rewrite in_flat_map in H.
    destruct H as ([file data] & Hf & H). simpl in H.
    destruct (eligible file) eqn:E; [|contradiction].
    destruct data as [content|]; [|contradiction].
    exists root, files, file, content. auto.
  - intros (root & files & file & content & Hd & Hf & E & H).
    exists (root, files). split; [assumption|]. simpl.
    rewrite in_flat_map. exists (file, Text content).
    split; [assumption|]. simpl. rewrite E. assumption.
Qed.

Lemma path_join_cases (a b : str) :
  path_join a b = b \/ exists a', path_join a b = a' ++ chr_slash :: b.
Proof.
  unfold path_join. destruct (startswith b "/"); [left; reflexivity|].
  destruct a as [|c a]; [left; reflexivity|]. simpl orb.
  destruct (endswith (c :: a) "/") eqn:E.
  - right. apply endswith_spec in E as [t ->].
    exists t. rewrite <- app_assoc. reflexivity.
  - right. exists (c :: a). reflexivity.
Qed.

Lemma endswith_path_join (a b s : str) :
  ~ In chr_slash s -> endswith (path_join a b) s = endswith b s.
Proof.
  intros Hs. destruct (path_join_cases a b) as [->|[a' ->]];
    [reflexivity | apply endswith_last_component; assumption].
Qed.

Lemma eligible_path_join (root file : str) :
  eligible (path_join root file) = eligible file.
Proof.
  unfold eligible, endswith_any. simpl.
  rewrite !endswith_path_join; [reflexivity| | | |];
    vm_compute; intuition discriminate.
Qed.

(** ** The reporting loop *)

Section Reporting.
Variable tree : list entry.
Variable cwd : str.
Variable search : str -> str -> search_outcome.
Variable src_dir : str.

Lemma print_summary_run unused out :
  print_summary unused out = (Ok tt, out ++ map summary_line unused).
Proof.
  revert out; induction unused as [|r unused IH]; intros out; simpl.
  - unfold ret. rewrite app_nil_r. reflexivity.
  - unfold bind, print. rewrite IH, <- app_assoc. reflexivity.
Qed.

(** Whatever the checks do, the loop flags only checked records whose check
    said "not used", and prints one notice for each of them. *)
Lemma check_exports_inv exports : forall unused out,
  exists added,
    snd (check_exports cwd search src_dir exports unused out)
    = out ++ map notice added
    /\ (forall r, In r added ->
          In r exports /\ flagged cwd search src_dir r = true)
    /\ (forall u,
          fst (check_exports cwd search src_dir exports unused out) = Ok u ->
          u = unused ++ added).
Proof.
  induction exports as [|[path name] exports IH]; intros unused out; simpl.
  - exists []. simpl. rewrite !app_nil_r. unfold ret; simpl.
    split; [reflexivity|]. split; [contradiction | congruence].
  - destruct (is_keyword name) eqn:K.
    + destruct (IH unused out) as (added & Ho & Ha & Hu).
      exists added. split; [exact Ho|]. split; [|exact Hu].
      intros r Hr. destruct (Ha r Hr). split; [right|]; assumption.
    + unfold bind, lift.
      destruct (is_used cwd search name path src_dir) as [[|]|e] eqn:U;
        simpl.
      * destruct (IH unused out) as (added & Ho & Ha & Hu).
        exists added. split; [exact Ho|]. split; [|exact Hu].
      intros r Hr. destruct (Ha r Hr). split; [right|]; assumption.
      * unfold print.
        destruct (IH (unused ++ [(path, name)])
                     (out ++ [notice (path, name)]))
          as (added & Ho & Ha & Hu).
        exists ((path, name) :: added). simpl. split; [|split].
        -- rewrite Ho, <- app_assoc. reflexivity.
        -- intros r [<-|Hr].
           ++ split; [left; reflexivity|].
              unfold flagged; simpl. rewrite K, U. reflexivity.
           ++ split; [right|]; apply Ha; assumption.
        -- intros u Hu'. rewrite (Hu u Hu'), <- app_assoc. reflexivity.
      * exists []. simpl. rewrite app_nil_r.
        split; [reflexivity|]. split; [contradiction | discriminate].
Qed.

(** When no check raises, the loop returns the flagged records in the order
    of the list. *)
Lemma check_exports_run exports : forall unused out,
  checks_return cwd search src_dir exports ->
  check_exports cwd search src_dir exports unused out
  = (Ok (unused ++ filter (flagged cwd search src_dir) exports),
     out ++ map notice (filter (flagged cwd search src_dir) exports)).
Proof.
  induction exports as [|[path name] exports IH]; intros unused out Hc;
    cbn [check_exports filter].
  - unfold ret. cbn [map]. rewrite !app_nil_r. reflexivity.
  - assert (Hc' : checks_return cwd search src_dir exports)
      by (intros r Hr; apply Hc; right; exact Hr).
    destruct (is_keyword name) eqn:K.
    + assert (F : flagged cwd search src_dir (path, name) = false)
        by (unfold flagged; cbn [fst snd]; rewrite K; reflexivity).
      rewrite F. apply IH; assumption.
    + destruct (Hc (path, name) (or_introl eq_refl) K) as [b Hb].
      cbn [fst snd] in Hb.
      assert (F : flagged cwd search src_dir (path, name) = negb b)
        by (unfold flagged; cbn [fst snd]; rewrite K, Hb;
            destruct b; reflexivity).
      rewrite F. unfold bind, lift. rewrite Hb.
      destruct b; cbn [negb]; [apply IH; assumption|].
      unfold print. rewrite IH by assumption. cbn [map].
      rewrite <- !app_assoc. reflexivity.
Qed.
End Reporting.

Lemma main_unfold tree cwd search :
  main tree cwd search []
  = match get_exports tree "src" with
    | Raise e => (Raise e, ["Scanning src for exports..."])
    | Ok exports =>
        match check_exports cwd search "src" exports []
                (progress (length exports)) with
        | (Raise e, out) => (Raise e, out)
        | (Ok unused, out) =>
            (Ok tt,
             out ++ [summary_header]
             ++ match unused with
                | [] => ["No unused exports found."]
                | _ :: _ => []
                end
             ++ map summary_line unused)
        end
    end.
Proof.
  unfold main, bind, lift, progress. cbv beta iota delta [print].
  cbn [app].
  destruct (get_exports tree "src") as [exports|e]; [|reflexivity].
  destruct (check_exports cwd search "src" exports [] _)
    as [[unused|e] out]; [|reflexivity].
  destruct unused as [|r unused].
  - cbn [print_summary map]. unfold ret. cbn [app].
    rewrite <- app_assoc. reflexivity.
  - unfold ret. rewrite print_summary_run, <- app_assoc. reflexivity.
Qed.

Lemma main_run tree cwd search exports :
  get_exports tree "src" = Ok exports ->
  checks_return cwd search "src" exports ->
  main tree cwd search []
  = (Ok tt, progress (length exports)
            ++ report (filter (flagged cwd search "src") exports)).
Proof.
  intros He Hc. unfold main, bind, lift, print at 1 2. rewrite He. simpl.
  rewrite check_exports_run by assumption. simpl.
  unfold print at 1. unfold report, progress.
  destruct (filter (flagged cwd search "src") exports) as [|r u] eqn:F.
  - simpl. reflexivity.
  - unfold ret. rewrite print_summary_run. simpl.
    rewrite <- !app_assoc. reflexivity.
Qed.

Lemma occurrences_filter (f : record -> bool) r l :
  f r = true -> occurrences r (filter f l) = occurrences r l.
Proof.
  intros Hf. unfold occurrences. induction l as [|x l IH]; simpl; auto.
  destruct (record_eqb r x) eqn:E.
  - assert (x = r) as ->.
    { unfold record_eqb in E. apply andb_true_iff in E as [E1 E2].
      apply str_eqb_eq in E1, E2. destruct r, x; simpl in *; congruence. }
    rewrite Hf. simpl. rewrite E. simpl. f_equal. exact IH.
  - destruct (f x); simpl; [rewrite E|]; exact IH.
Qed.

(** ** The usage checker *)

Lemma usages_of_spec cwd output definition_file f :
  In f (usages_of cwd output definition_file) <->
  In f (matched_files output)
  /\ abspath cwd f <> abspath cwd definition_file
  /\ is_test_path f = false.
Proof.
  unfold usages_of, matched_files, is_test_path.
  rewrite !filter_In, !negb_true_iff, str_eqb_neq. tauto.
Qed.

Lemma nonempty_length (A : Type) (l : list A) :
  (0 <? length l) = true <-> exists x, In x l.
Proof.
  destruct l as [|x l]; simpl.
  - split; [discriminate | intros [x []]].
  - split; [eauto | reflexivity].
Qed.

Lemma is_used_cases cwd search name definition_file directory :
  (is_used cwd search name definition_file directory = Ok true <->
   exists output,
     search name directory = Output output
     /\ exists f, In f (matched_files output)
                  /\ abspath cwd f <> abspath cwd definition_file
                  /\ is_test_path f = false)
  /\ (is_used cwd search name definition_file directory = Ok false <->
      (exists code, search name directory = CalledProcessError code)
      \/ exists output,
           search name directory = Output output
           /\ forall f, In f (matched_files output) ->
                        abspath cwd f = abspath cwd definition_file
                        \/ is_test_path f = true).
Proof.
  unfold is_used.
  destruct (search name directory) as [output|code|e] eqn:S.
  - destruct (0 <? length (usages_of cwd output definition_file)) eqn:L.
    + apply nonempty_length in L as [f Hf].
      apply usages_of_spec in Hf as (H1 & H2 & H3). split.
      * split; [intros _; exists output; eauto | reflexivity].
      * split; [discriminate|].
        intros [[code C]|(o & Ho & H)]; [discriminate|].
        inversion Ho; subst o. destruct (H f H1); congruence.
    + assert (Hn : forall f, ~ In f (usages_of cwd output definition_file)).
      { intros f Hf.
        assert (X : (0 <? length (usages_of cwd output definition_file))
                    = true) by (apply nonempty_length; eauto).
        congruence. }
      split.
      * split; [discriminate|].
        intros (o & Ho & f & H1 & H2 & H3). inversion Ho; subst o.
        exfalso. apply (Hn f). apply usages_of_spec. auto.
      * split; [|reflexivity]. intros _. right. exists output.
        split; [reflexivity|]. intros f Hf.
        destruct (str_eqb (abspath cwd f) (abspath cwd definition_file))
          eqn:E; [left; apply str_eqb_eq; exact E|].
        destruct (is_test_path f) eqn:T; [right; reflexivity|].
        exfalso. apply (Hn f). apply usages_of_spec.
        apply str_eqb_neq in E. auto.
  - split.
    + split; [discriminate | intros (o & Ho & _); discriminate].
    + split; [intros _; left; eauto | reflexivity].
  - split.
    + split; [discriminate | intros (o & Ho & _); discriminate].
    + split; [discriminate|].
      intros [[code C]|(o & Ho & _)]; discriminate.
Qed.

(** A record that is checked and found "not used" is printed, as a notice
    and in the summary, when the run ends. *)
Lemma unused_record_is_printed tree cwd search exports path name :
  get_exports tree "src" = Ok exports ->
  checks_return cwd search "src" exports ->
  In (path, name) exports -> is_keyword name = false ->
  is_used cwd search name path "src" = Ok false ->
  In (notice (path, name)) (snd (main tree cwd search []))
  /\ In (summary_line (path, name)) (snd (main tree cwd search [])).
Proof.
  intros Hex Hc Hin Hk Hu.
  rewrite (main_run _ Hex Hc). cbn [snd].
  assert (Hf : In (path, name) (filter (flagged cwd search "src") exports)).
  { apply filter_In. split; [assumption|].
    unfold flagged; cbn [fst snd]. rewrite Hk, Hu. reflexivity. }
  unfold report. rewrite !in_app_iff. split.
  - right. left. apply (in_map notice) in Hf. exact Hf.
  - right. right. right. right.
    apply (in_map summary_line) in Hf. exact Hf.
Qed.

(** C3 (as amended): when the search exits with a non-zero status,
    whatever the status, the check answers "not used", and the symbol, if
    it is not a keyword, appears in the notices and in the summary of a run
    that ends; a failure of the search that is not an exit status is not
    caught: the check raises it. *)
Theorem exit_status_means_unused tree cwd search name :
  (forall directory code definition_file,
     search name directory = CalledProcessError code ->
     is_used cwd search name definition_file directory = Ok false)
  /\ (forall code exports path,
        search name "src" = CalledProcessError code ->
        get_exports tree "src" = Ok exports ->
        checks_return cwd search "src" exports ->
        In (path, name) exports -> is_keyword name = false ->
        In (notice (path, name)) (snd (main tree cwd search []))
        /\ In (summary_line (path, name)) (snd (main tree cwd search [])))
  /\ (forall directory e definition_file,
        search name directory = Failure e ->
        is_used cwd search name definition_file directory = Raise e).
Proof.
  split; [|split].
  - intros directory code d H. unfold is_used. rewrite H. reflexivity.
  - intros code exports path Hfail Hex Hc Hin Hk.
    eapply unused_record_is_printed; eauto.
    unfold is_used. rewrite Hfail. reflexivity.
  - intros directory e d H. unfold is_used. rewrite H. reflexivity.
Qed.

Lemma exit_status_means_unused_witness :
  is_used "/work" (grep sample_mentions locked_tree) "Foo" "src/a.ts" "src"
  = Ok false
  /\ In "src/a.ts: Foo"
        (snd (main locked_tree "/work" (grep sample_mentions locked_tree) [])).
Proof.
  assert (Hfail : grep sample_mentions locked_tree "Foo" "src"
                  = CalledProcessError 2)
    by (vm_compute; reflexivity).
  destruct (@exit_status_means_unused locked_tree "/work"
              (grep sample_mentions locked_tree) "Foo") as (H1 & H2 & _).
  split; [exact (H1 "src" 2%Z "src/a.ts" Hfail)|].
  apply (H2 2%Z [("src/a.ts", "Foo")] "src/a.ts").
  - exact Hfail.
  - vm_compute; reflexivity.
  - intros r [<-|[]] _. exists false. vm_compute; reflexivity.
  - left; reflexivity.
  - vm_compute; reflexivity.
Defined.

(** C3 (counterexample): when the search tool cannot be started, the check
    does not answer "not used"; the exception leaves [is_used]. *)
Lemma unstartable_search_is_not_caught :
  is_used "/work" no_grep "Foo" "src/a.ts" "src" = Raise OSError.
Proof. reflexivity. Qed.

(** ** Claims about the collector *)

(** C9: every record the collector produces has a name that is a non-empty
    string of ASCII letters, digits and underscores, and a path that ends in
    [.ts] or [.tsx] but not in [.test.ts] or [.test.tsx]; the path is that
    of a file of a walked directory whose name passes the same test. *)
Theorem collected_records_wellformed tree directory exports path name :
  get_exports tree directory = Ok exports ->
  In (path, name) exports ->
  (name <> [] /\ forallb is_ident name = true)
  /\ endswith_any path [".ts"; ".tsx"] = true
  /\ endswith path ".test.ts" = false
  /\ endswith path ".test.tsx" = false
  /\ exists root files file content,
       In (root, files) (os_walk directory tree)
       /\ In (file, Text content) files
       /\ path = path_join root file /\ eligible file = true.
Proof.
  intros He Hin. apply get_exports_ok in He. subst exports.
  apply in_exports_of_dirs in Hin
    as (root & files & file & content & Hd & Hf & El & Hin).
  apply file_exports_sound in Hin as [-> Hn].
  split; [exact Hn|].
  pose proof El as El'. rewrite <- (eligible_path_join root) in El'.
  unfold eligible in El'.
  apply andb_true_iff in El' as [El' T2].
  apply andb_true_iff in El' as [T0 T1].
  apply negb_true_iff in T1, T2.
  repeat (split; [assumption|]).
  exists root, files, file, content. auto.
Qed.

Lemma collected_records_wellformed_witness :
  (("Widget" : str) <> [] /\ forallb is_ident "Widget" = true)
  /\ endswith_any "src/lib/b.tsx" [".ts"; ".tsx"] = true
  /\ endswith "src/lib/b.tsx" ".test.ts" = false
  /\ endswith "src/lib/b.tsx" ".test.tsx" = false
  /\ exists root files file content,
       In (root, files) (os_walk "src" sample_tree)
       /\ In (file, Text content) files
       /\ "src/lib/b.tsx" = path_join root file /\ eligible file = true.
Proof.
  apply (@collected_records_wellformed sample_tree "src"
           [("src/a.ts", "Foo"); ("src/a.ts", "Bar");
            ("src/lib/b.tsx", "Widget")]).
  - vm_compute; reflexivity.
  - right; right; left; reflexivity.
Defined.

(** C5 (the code at the failing input): of the identifiers between the
    braces of [export { Bar as Baz }] only the first one is collected. *)
Theorem braces_capture_first_identifier_only :
  get_exports aliased_tree "src" = Ok [("src/a.ts", "Bar")]
  /\ file_exports "src/b.ts" "export { A, B }" = [("src/b.ts", "A")].
Proof. vm_compute. split; reflexivity. Qed.

(** ** Claims about the report *)

Lemma search_runs_checks_return cwd search src_dir exports :
  search_runs search -> checks_return cwd search src_dir exports.
Proof.
  intros Hs r _ _. unfold is_used.
  destruct (search (snd r) src_dir) as [o|c|e] eqn:E; eauto.
  exfalso. exact (Hs _ _ _ E).
Qed.

Lemma grep_runs mentions tree : search_runs (grep mentions tree).
Proof.
  intros name directory e. unfold grep.
  destruct (existsb unreadable (all_files directory tree)); [discriminate|].
  destruct (filter (mentions name) (all_files directory tree));
    discriminate.
Qed.

(** C8: when the run ends, the summary lists exactly the collected records
    that are not keywords and whose check said "not used", in the order in
    which they were collected (directories as [os.walk] yields them, files
    in the order of the listing, patterns in order) and as many times as
    they were collected; when there is none, the line
    "No unused exports found." is printed instead. *)
Theorem summary_is_filtered_exports tree cwd search exports :
  get_exports tree "src" = Ok exports ->
  checks_return cwd search "src" exports ->
  let unused := filter (flagged cwd search "src") exports in
  exports = exports_of_dirs (os_walk "src" tree)
  /\ main tree cwd search []
     = (Ok tt,
        progress (length exports) ++ map notice unused ++ [summary_header]
        ++ match unused with
           | [] => ["No unused exports found."]
           | _ :: _ => []
           end
        ++ map summary_line unused)
  /\ forall r, flagged cwd search "src" r = true ->
               occurrences r unused = occurrences r exports.
Proof.
  intros He Hc unused. split; [apply get_exports_ok; exact He|]. split.
  - rewrite (main_run _ He Hc). reflexivity.
  - intros r Hr. apply occurrences_filter. exact Hr.
Qed.

Lemma summary_is_filtered_exports_witness :
  main duplicate_tree "/work" (grep sample_mentions duplicate_tree) []
  = (Ok tt,
     ["Scanning src for exports..."; "Found 2 exports. Checking usage...";
      "Potentially unused: A in src/a.ts";
      "Potentially unused: A in src/a.ts";
      summary_header; "src/a.ts: A"; "src/a.ts: A"]).
Proof.
  apply (@summary_is_filtered_exports duplicate_tree "/work"
           (grep sample_mentions duplicate_tree)
           [("src/a.ts", "A"); ("src/a.ts", "A")]).
  - vm_compute; reflexivity.
  - apply search_runs_checks_return, grep_runs.
Defined.

Lemma collect_files_readable root files acc l :
  collect_files root files acc = Ok l -> sources_readable files.
Proof.
  revert acc; induction files as [|[file data] files IH]; intros acc H f Hf;
    [contradiction|].
  cbn [collect_files] in H. destruct (eligible file) eqn:E.
  - destruct data as [content|]; [|discriminate].
    destruct Hf as [Hf|Hf]; [discriminate|]. eapply IH; eauto.
  - destruct Hf as [Hf|Hf]; [inversion Hf; subst; exact E|].
    eapply IH; eauto.
Qed.

Lemma collect_dirs_readable dirs : forall acc l,
  collect_dirs dirs acc = Ok l ->
  forall root files, In (root, files) dirs -> sources_readable files.
Proof.
  induction dirs as [|[root0 files0] dirs IH]; intros acc l H root files Hin;
    [contradiction|].
  cbn [collect_dirs] in H.
  destruct (collect_files root0 files0 acc) as [acc'|e] eqn:E;
    [|discriminate].
  destruct Hin as [Hin|Hin].
  - inversion Hin; subst. eapply collect_files_readable; eauto.
  - eapply IH; eauto.
Qed.

Lemma check_exports_returns cwd search src_dir exports : forall unused out u,
  fst (check_exports cwd search src_dir exports unused out) = Ok u ->
  checks_return cwd search src_dir exports.
Proof.
  induction exports as [|[path name] exports IH]; intros unused out u H r Hr Hk;
    [contradiction|].
  cbn [check_exports] in H.
  destruct (is_keyword name) eqn:K.
  - destruct Hr as [<-|Hr]; [cbn [snd] in Hk; congruence|].
    eapply IH; eauto.
  - unfold bind, lift in H.
    destruct (is_used cwd search name path src_dir) as [[|]|e] eqn:U;
      cbn [negb fst] in H; try discriminate.
    + destruct Hr as [<-|Hr]; [eauto | eapply IH; eauto].
    + unfold print in H.
      destruct Hr as [<-|Hr]; [eauto | eapply IH; eauto].
Qed.

Lemma is_used_returns_iff cwd search name path directory :
  (exists b, is_used cwd search name path directory = Ok b) <->
  forall e, search name directory <> Failure e.
Proof.
  unfold is_used. destruct (search name directory) as [o|c|e].
  - split; [intros _ e'; discriminate | intros _; eauto].
  - split; [intros _ e'; discriminate | intros _; eauto].
  - split; [intros [b H]; discriminate|].
    intros H. exfalso. apply (H e). reflexivity.
Qed.

(** C6 (as amended): the program runs to its end exactly when every
    eligible file can be read and no search for a collected name that is
    not a keyword ends in an exception other than a non-zero exit status;
    what the files contain, and the exit status and the output of the
    search, cannot stop it. *)
Theorem main_ends_iff_files_and_tool_work tree cwd search :
  fst (main tree cwd search []) = Ok tt <->
  tree_readable tree "src"
  /\ forall r, In r (exports_of_dirs (os_walk "src" tree)) ->
               is_keyword (snd r) = false ->
               forall e, search (snd r) "src" <> Failure e.
Proof.
  split.
  - intros H. rewrite main_unfold in H.
    destruct (get_exports tree "src") as [exports|e] eqn:He;
      [|discriminate].
    pose proof (get_exports_ok _ _ He) as E. subst exports.
    split.
    + intros root files Hin. unfold get_exports in He.
      eapply collect_dirs_readable; eauto.
    + intros r Hr Hk.
      destruct (check_exports cwd search "src"
                  (exports_of_dirs (os_walk "src" tree)) []
                  (progress (length (exports_of_dirs (os_walk "src" tree)))))
        as [[u|e] out] eqn:C; [|discriminate].
      apply (is_used_returns_iff cwd search (snd r) (fst r) "src").
      eapply check_exports_returns; [rewrite C; reflexivity | eauto..].
  - intros [Hr Hs].
    rewrite (@main_run tree cwd search _ (@get_exports_total tree "src" Hr));
      [reflexivity|].
    intros r Hin Hk. apply is_used_returns_iff. apply Hs; assumption.
Qed.

Lemma main_ends_iff_files_and_tool_work_witness :
  fst (main locked_tree "/work" (grep sample_mentions locked_tree) []) = Ok tt.
Proof.
  apply main_ends_iff_files_and_tool_work. split.
  - intros root files [H|[]] file Hf; inversion H; subst; clear H.
    destruct Hf as [Hf|[Hf|[]]]; inversion Hf. vm_compute; reflexivity.
  - intros r _ _. apply grep_runs.
Defined.

(** C6 (counterexample): an eligible file that cannot be read, or a search
    tool that cannot be started, ends the run with an exception. *)
Lemma main_raises_on_unreadable_file :
  main unreadable_tree "/work" (grep sample_mentions unreadable_tree) []
  = (Raise OSError, ["Scanning src for exports..."])
  /\ main sample_tree "/work" no_grep [] = (Raise OSError, progress 3).
Proof. vm_compute. split; reflexivity. Qed.

(** C4 (as amended): when no file contains the name as a whole word,
    whatever the search takes for such an occurrence, the search exits
    with a non-zero status and the check answers "not used", so that the
    symbol is flagged. *)
Theorem no_match_means_unused mentions tree cwd name definition_file
    directory :
  filter (mentions name) (all_files directory tree) = [] ->
  (exists code,
     grep mentions tree name directory = CalledProcessError code
     /\ code <> 0%Z)
  /\ is_used cwd (grep mentions tree) name definition_file directory
     = Ok false.
Proof.
  intros H. unfold is_used, grep. rewrite H.
  destruct (existsb unreadable (all_files directory tree)).
  - split; [exists 2%Z; split; [reflexivity | discriminate] | reflexivity].
  - split; [exists 1%Z; split; [reflexivity | discriminate] | reflexivity].
Qed.

Lemma no_match_means_unused_witness :
  (exists code,
     grep sample_mentions plain_tree "Foo" "src" = CalledProcessError code
     /\ code <> 0%Z)
  /\ is_used "/work" (grep sample_mentions plain_tree) "Foo" "src/a.ts"
       "src"
     = Ok false.
Proof.
  apply (@no_match_means_unused sample_mentions plain_tree "/work" "Foo"
           "src/a.ts" "src").
  vm_compute; reflexivity.
Defined.

(** C4 (counterexample): a search that finds no match at all does not make
    the symbol "used". *)
Lemma no_match_is_not_used :
  filter (sample_mentions "Foo") (all_files "src" plain_tree) = []
  /\ grep sample_mentions plain_tree "Foo" "src" = CalledProcessError 1
  /\ is_used "/work" (grep sample_mentions plain_tree) "Foo" "src/a.ts"
       "src"
     = Ok false.
Proof. vm_compute. repeat split; reflexivity. Qed.

(** ** Splitting and joining *)

Lemma split_on_nonempty sep s : split_on sep s <> [].
Proof.
  destruct s as [|c s]; simpl; [discriminate|].
  destruct (Ascii.eqb c sep); [discriminate|].
  destruct (split_on sep s); discriminate.
Qed.

Lemma split_on_app sep a b :
  split_on sep (a ++ sep :: b) = split_on sep a ++ split_on sep b.
Proof.
  induction a as [|c a IH]; simpl.
  - rewrite Ascii.eqb_refl. reflexivity.
  - destruct (Ascii.eqb c sep); [rewrite IH; reflexivity|].
    rewrite IH. pose proof (split_on_nonempty sep a) as Hn.
    destruct (split_on sep a) as [|w ws]; [contradiction|]. reflexivity.
Qed.

Lemma split_on_no_sep sep s : ~ In sep s -> split_on sep s = [s].
Proof.
  induction s as [|c s IH]; intros H; simpl; [reflexivity|].
  destruct (Ascii.eqb c sep) eqn:E.
  - apply Ascii.eqb_eq in E. subst. exfalso. apply H. left; reflexivity.
  - rewrite IH; [reflexivity|]. intros Hin. apply H. right; exact Hin.
Qed.

Lemma split_on_components sep s c : In c (split_on sep s) -> ~ In sep c.
Proof.
  revert c; induction s as [|x s IH]; intros c H; simpl in H.
  - destruct H as [<-|[]]. intros [].
  - destruct (Ascii.eqb x sep) eqn:E.
    + destruct H as [<-|H]; [intros []|apply IH; exact H].
    + pose proof (split_on_nonempty sep s) as Hn.
      destruct (split_on sep s) as [|w ws]; [contradiction|].
      destruct H as [<-|H].
      * intros [->|Hin]; [rewrite Ascii.eqb_refl in E; discriminate|].
        apply (IH w); [left; reflexivity | exact Hin].
      * apply IH. right; exact H.
Qed.

Lemma split_on_join sep cs :
  cs <> [] -> Forall (fun c => ~ In sep c) cs ->
  split_on sep (join_with [sep] cs) = cs.
Proof.
  induction cs as [|w cs IH]; intros Hne Hf; [contradiction|].
  inversion Hf as [|? ? Hw Hcs]; subst.
  destruct cs as [|w' cs].
  - simpl. apply split_on_no_sep; assumption.
  - change (join_with [sep] (w :: w' :: cs))
      with (w ++ sep :: join_with [sep] (w' :: cs)).
    rewrite split_on_app, (split_on_no_sep sep w Hw), IH;
      [reflexivity | discriminate | assumption].
Qed.

Lemma join_with_app sep (a b : list str) :
  a <> [] -> b <> [] ->
  join_with sep (a ++ b) = join_with sep a ++ sep ++ join_with sep b.
Proof.
  induction a as [|w a IH]; intros Ha Hb; [contradiction|].
  destruct a as [|w' a].
  - simpl. destruct b; [contradiction | reflexivity].
  - change (join_with sep ((w :: w' :: a) ++ b))
      with (w ++ sep ++ join_with sep ((w' :: a) ++ b)).
    rewrite IH by (auto; discriminate).
    change (join_with sep (w :: w' :: a))
      with (w ++ sep ++ join_with sep (w' :: a)).
    rewrite <- !app_assoc. reflexivity.
Qed.

Lemma join_with_snoc sep (a : list str) (w : str) :
  a <> [] -> join_with sep (a ++ [w]) = join_with sep a ++ sep ++ w.
Proof. intros Ha. apply join_with_app; [assumption | discriminate]. Qed.

(** ** Absolute paths *)

Lemma comp_ok_spec c :
  comp_ok c ->
  c <> "" /\ c <> "." /\ c <> ".." /\ ~ In chr_slash c.
Proof.
  unfold comp_ok, valid_name. rewrite !andb_true_iff, !negb_true_iff.
  rewrite !str_eqb_neq. intros [[[H1 H2] H3] H4].
  repeat split; auto. intros Hin.
  rewrite forallb_forall in H4. specialize (H4 _ Hin).
  unfold chr_slash in H4. rewrite Ascii.eqb_refl in H4. discriminate.
Qed.

Lemma norm_step_push k st c : comp_ok c -> norm_step k st c = st ++ [c].
Proof.
  intros H. apply comp_ok_spec in H as (H1 & H2 & H3 & _).
  unfold norm_step.
  apply str_eqb_neq in H1, H2, H3. rewrite H1, H2, H3. reflexivity.
Qed.

Lemma norm_steps_push k cs : forall st,
  Forall comp_ok cs -> fold_left (norm_step k) cs st = st ++ cs.
Proof.
  induction cs as [|c cs IH]; intros st Hf; simpl.
  - symmetry; apply app_nil_r.
  - inversion Hf; subst. rewrite norm_step_push by assumption.
    rewrite IH by assumption. rewrite <- app_assoc. reflexivity.
Qed.

Lemma norm_step_no_slash k st c :
  Forall (fun w => ~ In chr_slash w) st -> ~ In chr_slash c ->
  Forall (fun w => ~ In chr_slash w) (norm_step k st c).
Proof.
  intros Hst Hc. unfold norm_step.
  destruct (str_eqb c "" || str_eqb c "."); [assumption|].
  match goal with |- context [if ?b then _ else _] => destruct b end.
  - apply Forall_app. split; [assumption | constructor; auto].
  - rewrite Forall_forall in *. intros w Hw. apply Hst.
    clear - Hw. induction st as [|x st IH]; simpl in Hw; [contradiction|].
    destruct st; [contradiction|].
    destruct Hw as [<-|Hw]; [left; reflexivity | right; apply IH; exact Hw].
Qed.

Lemma norm_steps_no_slash k cs : forall st,
  Forall (fun w => ~ In chr_slash w) st ->
  Forall (fun w => ~ In chr_slash w) cs ->
  Forall (fun w => ~ In chr_slash w) (fold_left (norm_step k) cs st).
Proof.
  induction cs as [|c cs IH]; intros st Hst Hcs; simpl; [assumption|].
  inversion Hcs; subst. apply IH; [|assumption].
  apply norm_step_no_slash; assumption.
Qed.

Lemma startswith_cons x p y s :
  startswith (y :: s) (x :: p) = Ascii.eqb x y && startswith s p.
Proof. reflexivity. Qed.

Lemma startswith_nil s : startswith s [] = true.
Proof. reflexivity. Qed.

Lemma initial_slashes_cons s :
  initial_slashes ("/"%char :: s)
  = if startswith s "/" && negb (startswith s "//") then 2 else 1.
Proof.
  unfold initial_slashes. rewrite !startswith_cons, Ascii.eqb_refl.
  reflexivity.
Qed.

Lemma initial_slashes_join cwd q :
  startswith cwd "/" = true -> startswith q "/" = false ->
  initial_slashes (path_join cwd q) = initial_slashes cwd.
Proof.
  intros Hc Hq. unfold path_join. rewrite Hq.
  destruct cwd as [|c1 t]; [discriminate|].
  rewrite startswith_cons, startswith_nil, andb_true_r in Hc.
  apply Ascii.eqb_eq in Hc. subst c1. cbn [orb].
  destruct t as [|c2 [|c3 t]].
  - replace (endswith "/" "/") with true by reflexivity. cbn [app].
    rewrite !initial_slashes_cons, Hq. reflexivity.
  - unfold endswith.
    cbn [length Nat.leb Nat.sub skipn str_eqb andb app].
    rewrite andb_true_r.
    destruct (Ascii.eqb c2 "/") eqn:E2; cbn [app];
      rewrite !initial_slashes_cons, !startswith_cons, !startswith_nil.
    + apply Ascii.eqb_eq in E2. subst c2.
      rewrite Ascii.eqb_refl, Hq. reflexivity.
    + rewrite Ascii.eqb_sym in E2. rewrite E2. reflexivity.
  - destruct (endswith ("/"%char :: c2 :: c3 :: t) "/"); cbn [app];
      rewrite !initial_slashes_cons, !startswith_cons, !startswith_nil;
      reflexivity.
Qed.

Lemma path_join_relative k cwd q :
  startswith cwd "/" = true -> startswith q "/" = false ->
  exists c,
    path_join cwd q = c ++ chr_slash :: q
    /\ fold_left (norm_step k) (split_on chr_slash c) []
       = fold_left (norm_step k) (split_on chr_slash cwd) [].
Proof.
  intros Hc Hq. unfold path_join. rewrite Hq.
  destruct cwd as [|c1 t]; [discriminate|]. cbn [orb].
  destruct (endswith (c1 :: t) "/") eqn:E.
  - apply endswith_spec in E as [c E]. rewrite E. exists c. split.
    + rewrite <- app_assoc. reflexivity.
    + change (c ++ "/") with (c ++ chr_slash :: []).
      rewrite split_on_app, fold_left_app. reflexivity.
  - exists (c1 :: t). split; reflexivity.
Qed.

Lemma initial_slashes_absolute cwd :
  startswith cwd "/" = true -> exists k, initial_slashes cwd = S k.
Proof.
  intros H. unfold initial_slashes. rewrite H.
  destruct (startswith cwd "//" && negb (startswith cwd "///")); eauto.
Qed.

(** The absolute form of a relative path: its components are pushed on
    those of the current directory. *)
Lemma abspath_relative cwd q :
  startswith cwd "/" = true -> startswith q "/" = false ->
  abspath cwd q
  = cwd_root cwd
    ++ join_with "/" (fold_left (norm_step (initial_slashes cwd))
                        (split_on chr_slash q) (cwd_stack cwd)).
Proof.
  intros Hc Hq. unfold abspath. rewrite Hq.
  pose proof (initial_slashes_join cwd q Hc Hq) as Hk.
  destruct (path_join_relative (initial_slashes cwd) cwd q Hc Hq)
    as (c & Hj & Hs).
  destruct (initial_slashes_absolute cwd Hc) as [k Hk'].
  unfold normpath. rewrite Hk. rewrite Hj.
  destruct (c ++ chr_slash :: q) eqn:X;
    [destruct c; discriminate|]. rewrite <- X.
  rewrite split_on_app, fold_left_app, Hs.
  unfold cwd_root, cwd_stack. rewrite Hk'. reflexivity.
Qed.

Lemma startswith_slash_join cs :
  cs <> [] -> Forall comp_ok cs ->
  startswith (join_with "/" cs) "/" = false.
Proof.
  intros Hne Hf. destruct cs as [|w cs]; [contradiction|].
  inversion Hf as [|? ? Hw _]; subst.
  apply comp_ok_spec in Hw as (H1 & _ & _ & H4).
  destruct w as [|x w]; [contradiction|].
  assert (E : Ascii.eqb "/" x = false).
  { apply Ascii.eqb_neq. intros <-. apply H4. left; reflexivity. }
  destruct cs; cbn [join_with app]; rewrite startswith_cons, E; reflexivity.
Qed.

Lemma abspath_components cwd cs :
  startswith cwd "/" = true -> cs <> [] -> Forall comp_ok cs ->
  abspath cwd (join_with "/" cs)
  = cwd_root cwd ++ join_with "/" (cwd_stack cwd ++ cs).
Proof.
  intros Hc Hne Hf.
  rewrite abspath_relative by (auto using startswith_slash_join).
  change "/" with [chr_slash]. rewrite split_on_join; auto.
  - rewrite norm_steps_push by assumption. reflexivity.
  - eapply Forall_impl; [|exact Hf]. intros c H.
    apply comp_ok_spec in H. tauto.
Qed.

Lemma abspath_empty cwd :
  startswith cwd "/" = true ->
  abspath cwd "" = cwd_root cwd ++ join_with "/" (cwd_stack cwd).
Proof. intros Hc. rewrite abspath_relative by auto. reflexivity. Qed.

Lemma cwd_stack_no_slash cwd :
  Forall (fun w => ~ In chr_slash w) (cwd_stack cwd).
Proof.
  apply norm_steps_no_slash; [constructor|].
  apply Forall_forall. intros c. apply split_on_components.
Qed.

Lemma join_components_inj (a b : list str) :
  a <> [] -> b <> [] ->
  Forall (fun w => ~ In chr_slash w) a ->
  Forall (fun w => ~ In chr_slash w) b ->
  join_with "/" a = join_with "/" b -> a = b.
Proof.
  intros Ha Hb Fa Fb H.
  rewrite <- (@split_on_join chr_slash a Ha Fa),
    <- (@split_on_join chr_slash b Hb Fb).
  change [chr_slash] with ("/" : str). rewrite H. reflexivity.
Qed.

Lemma comps_no_slash cs :
  Forall comp_ok cs -> Forall (fun w => ~ In chr_slash w) cs.
Proof.
  intros H. eapply Forall_impl; [|exact H].
  intros c Hc. apply comp_ok_spec in Hc. tauto.
Qed.

(** Two paths made of valid names have the same absolute form only when
    they are the same path. *)
Lemma abspath_injective cwd cs1 cs2 :
  startswith cwd "/" = true ->
  cs1 <> [] -> cs2 <> [] -> Forall comp_ok cs1 -> Forall comp_ok cs2 ->
  abspath cwd (join_with "/" cs1) = abspath cwd (join_with "/" cs2) ->
  cs1 = cs2.
Proof.
  intros Hc N1 N2 F1 F2 H.
  rewrite !abspath_components in H by assumption.
  apply app_inv_head in H.
  apply join_components_inj in H.
  - apply app_inv_head in H. exact H.
  - destruct (cwd_stack cwd), cs1; try discriminate; contradiction.
  - destruct (cwd_stack cwd), cs2; try discriminate; contradiction.
  - apply Forall_app. split;
      [apply cwd_stack_no_slash | apply comps_no_slash; assumption].
  - apply Forall_app. split;
      [apply cwd_stack_no_slash | apply comps_no_slash; assumption].
Qed.

(** The absolute form of such a path is never the current directory. *)
Lemma abspath_not_cwd cwd cs :
  startswith cwd "/" = true -> cs <> [] -> Forall comp_ok cs ->
  abspath cwd (join_with "/" cs) <> abspath cwd "".
Proof.
  intros Hc Hne Hf H.
  rewrite abspath_components, abspath_empty in H by assumption.
  apply app_inv_head in H.
  destruct (cwd_stack cwd) as [|w st] eqn:St.
  - cbn [app] in H. destruct cs as [|c cs]; [contradiction|].
    inversion Hf as [|? ? Hw _]; subst.
    apply comp_ok_spec in Hw as (H1 & _).
    destruct c; [contradiction|]. destruct cs; discriminate.
  - apply join_components_inj in H.
    + apply (f_equal (@length str)) in H. rewrite length_app in H.
      destruct cs; [contradiction|]. simpl in H. lia.
    + discriminate.
    + discriminate.
    + apply Forall_app. split; [|apply comps_no_slash; assumption].
      rewrite <- St. apply cwd_stack_no_slash.
    + rewrite <- St. apply cwd_stack_no_slash.
Qed.

(** ** The paths of a tree *)

Section EntryInduction.
Variable P : entry -> Prop.
Hypothesis HFile : forall name data, P (File name data).
Hypothesis HDir :
  forall name children, Forall P children -> P (Dir name children).

Fixpoint entry_ind2 (e : entry) : P e :=
  match e with
  | File name data => HFile name data
  | Dir name children =>
      HDir name
        ((fix all (l : list entry) : Forall P l :=
            match l with
            | [] => Forall_nil P
            | x :: l' => Forall_cons x (entry_ind2 x) (all l')
            end) children)
  end.
End EntryInduction.

Lemma in_files_of entries f d :
  In (f, d) (files_of entries) <-> In (File f d) entries.
Proof.
  induction entries as [|[n d'|n ch] entries IH]; simpl.
  - tauto.
  - rewrite IH. split; (intros [H|H]; [left; congruence | right; exact H]).
  - rewrite IH. split; [auto | intros [H|H]; [discriminate | exact H]].
Qed.

(** The files that the search visits are the files of the directories that
    [os.walk] yields, under the same paths. *)
Lemma grep_files_walk_entry e : forall top p d,
  In (p, d) (grep_files top e) <->
  (e = File (match e with File n _ => n | Dir n _ => n end) d
   /\ p = path_join top (match e with File n _ => n | Dir n _ => n end))
  \/ walked (walk_entry top e) p d.
Proof.
  induction e as [name data|name children IH] using entry_ind2;
    intros top p d.
  - simpl. split.
    + intros [H|[]]. inversion H; subst. left. auto.
    + intros [[H1 H2]|(root & files & f & [] & _)].
      inversion H1; subst. left; reflexivity.
  - cbn [grep_files walk_entry]. set (root := path_join top name).
    rewrite in_flat_map. split.
    + intros (x & Hx & H). rewrite Forall_forall in IH.
      apply (IH x Hx) in H as [[E1 E2]|(r & fs & f & Hw & Hf & Hp)].
      * right. exists root, (files_of children),
          (match x with File n _ => n | Dir n _ => n end).
        split; [left; reflexivity|].
        split; [apply in_files_of; rewrite <- E1; exact Hx | exact E2].
      * right. exists r, fs, f. split; [|auto].
        right. apply in_flat_map. eauto.
    + intros [[H _]|(r & fs & f & Hw & Hf & Hp)]; [discriminate|].
      rewrite Forall_forall in IH.
      destruct Hw as [Hw|Hw].
      * inversion Hw; subst r fs. apply in_files_of in Hf.
        exists (File f d). split; [exact Hf|].
        apply (IH _ Hf). left. auto.
      * apply in_flat_map in Hw as (x & Hx & Hw).
        exists x. split; [exact Hx|].
        apply (IH x Hx). right. exists r, fs, f. auto.
Qed.

Lemma all_files_walked top tree p d :
  In (p, d) (all_files top tree) <-> walked (os_walk top tree) p d.
Proof.
  unfold all_files, os_walk. rewrite in_flat_map. split.
  - intros (x & Hx & H).
    apply grep_files_walk_entry in H
      as [[E1 E2]|(r & fs & f & Hw & Hf & Hp)].
    + exists top, (files_of tree),
        (match x with File n _ => n | Dir n _ => n end).
      split; [left; reflexivity|].
      split; [apply in_files_of; rewrite <- E1; exact Hx | exact E2].
    + exists r, fs, f. split; [|auto]. right. apply in_flat_map. eauto.
  - intros (r & fs & f & [Hw|Hw] & Hf & Hp).
    + inversion Hw; subst r fs. apply in_files_of in Hf.
      exists (File f d). split; [exact Hf|].
      apply grep_files_walk_entry. left. auto.
    + apply in_flat_map in Hw as (x & Hx & Hw).
      exists x. split; [exact Hx|].
      apply grep_files_walk_entry. right. exists r, fs, f. auto.
Qed.

Lemma endswith_slash_join cs :
  cs <> [] -> Forall comp_ok cs -> endswith (join_with "/" cs) "/" = false.
Proof.
  intros Hne Hf. destruct (endswith (join_with "/" cs) "/") eqn:E;
    [|reflexivity].
  exfalso. apply endswith_spec in E as [t E].
  apply (f_equal (split_on chr_slash)) in E.
  change (t ++ "/") with (t ++ chr_slash :: []) in E.
  rewrite split_on_app in E. change ("/" : str) with [chr_slash] in E.
  rewrite split_on_join in E by (auto using comps_no_slash).
  rewrite Forall_forall in Hf.
  assert (Hin : In [] cs)
    by (rewrite E; apply in_or_app; right; left; reflexivity).
  apply Hf in Hin. apply comp_ok_spec in Hin as [H _]. apply H; reflexivity.
Qed.

Lemma path_join_components cs n :
  cs <> [] -> Forall comp_ok cs -> comp_ok n ->
  path_join (join_with "/" cs) n = join_with "/" (cs ++ [n]).
Proof.
  intros Hne Hf Hn. unfold path_join.
  assert (Hs : startswith n "/" = false)
    by (apply (@startswith_slash_join [n]); [discriminate | auto]).
  rewrite Hs.
  rewrite endswith_slash_join by assumption.
  rewrite join_with_snoc by assumption.
  destruct (join_with "/" cs) eqn:J; [|reflexivity].
  exfalso. destruct cs as [|w cs]; [contradiction|].
  inversion Hf as [|? ? Hw _]; subst.
  apply comp_ok_spec in Hw as [Hw _].
  destruct w; [contradiction|]. destruct cs; discriminate.
Qed.

(** Below a directory whose path is made of valid names, the files of a
    tree of valid names have paths made of valid names. *)
Lemma grep_files_components Q e : forall cs p d,
  cs <> [] -> Forall comp_ok cs ->
  names_ok valid_name e = true -> names_ok Q e = true ->
  In (p, d) (grep_files (join_with "/" cs) e) ->
  exists cs',
    cs' <> [] /\ Forall (fun c => comp_ok c /\ Q c = true) cs'
    /\ p = join_with "/" (cs ++ cs').
Proof.
  induction e as [name data|name children IH] using entry_ind2;
    intros cs p d Hne Hf Hv Hq Hin.
  - simpl in Hin, Hv, Hq. destruct Hin as [H|[]]. inversion H; subst.
    exists [name]. split; [discriminate|]. split; [auto|].
    apply path_join_components; assumption.
  - cbn [grep_files names_ok] in Hin, Hv, Hq.
    apply andb_true_iff in Hv as [Hv Hvc], Hq as [Hq Hqc].
    rewrite path_join_components in Hin by assumption.
    apply in_flat_map in Hin as (x & Hx & Hin).
    rewrite Forall_forall in IH. rewrite forallb_forall in Hvc, Hqc.
    apply (IH x Hx (cs ++ [name])) in Hin
      as (cs' & Hne' & Hf' & ->); auto.
    + exists (name :: cs'). split; [discriminate|].
      split; [constructor; auto|].
      rewrite <- app_assoc. reflexivity.
    + destruct cs; discriminate.
    + apply Forall_app. split; [assumption | constructor; auto].
Qed.

Lemma all_files_components Q top tree p d :
  comp_ok top ->
  forallb (names_ok valid_name) tree = true ->
  forallb (names_ok Q) tree = true ->
  In (p, d) (all_files top tree) ->
  exists cs,
    cs <> [] /\ Forall (fun c => comp_ok c /\ Q c = true) cs
    /\ p = join_with "/" (top :: cs).
Proof.
  intros Ht Hv Hq Hin. unfold all_files in Hin.
  apply in_flat_map in Hin as (x & Hx & Hin).
  rewrite forallb_forall in Hv, Hq.
  apply (@grep_files_components Q x [top]) in Hin; auto.
  discriminate.
Qed.

Lemma names_ok_trivial e : names_ok (fun _ => true) e = true.
Proof.
  induction e as [name data|name children IH] using entry_ind2;
    [reflexivity|].
  cbn [names_ok andb]. apply forallb_forall. rewrite Forall_forall in IH.
  exact IH.
Qed.

(** A collected path is the path of a file that the search visits. *)
Lemma collected_path_is_file tree directory exports path name :
  get_exports tree directory = Ok exports -> In (path, name) exports ->
  exists content, In (path, Text content) (all_files directory tree).
Proof.
  intros He Hin. apply get_exports_ok in He. subst exports.
  apply in_exports_of_dirs in Hin
    as (root & files & file & content & Hd & Hf & El & Hin).
  apply file_exports_sound in Hin as [-> _].
  exists content. apply all_files_walked. exists root, files, file. auto.
Qed.

(** C10: when the search succeeds and prints nothing, the empty output is
    read as the one path [""]; it is no test file and its absolute form is
    the current directory, so it counts as a usage for every defining file
    whose absolute path is not the current directory, which is the case of
    every collected path: the check answers "used" and the symbol is not
    flagged. *)
Theorem empty_output_means_used cwd search name directory
    (Hout : search name directory = Output "") :
  (forall definition_file,
     abspath cwd definition_file <> abspath cwd "" ->
     usages_of cwd "" definition_file = [""]
     /\ is_used cwd search name definition_file directory = Ok true)
  /\ forall tree exports path,
       startswith cwd "/" = true -> valid_name directory = true ->
       valid_tree tree = true ->
       get_exports tree directory = Ok exports -> In (path, name) exports ->
       is_used cwd search name path directory = Ok true
       /\ flagged cwd search directory (path, name) = false.
Proof.
  assert (H1 : forall definition_file,
             abspath cwd definition_file <> abspath cwd "" ->
             usages_of cwd "" definition_file = [""]
             /\ is_used cwd search name definition_file directory = Ok true).
  { intros d Hd.
    assert (U : usages_of cwd "" d = [""]).
    { unfold usages_of. change (split_on chr_newline (strip "")) with [("" : str)].
      cbn [filter].
      assert (E : str_eqb (abspath cwd "") (abspath cwd d) = false)
        by (apply str_eqb_neq; congruence).
      rewrite E. reflexivity. }
    split; [exact U|]. unfold is_used. rewrite Hout, U. reflexivity. }
  split; [exact H1|].
  intros tree exports path Hc Hd Hv He Hin.
  assert (Hu : is_used cwd search name path directory = Ok true).
  { apply H1.
    destruct (@collected_path_is_file tree directory exports path name
                He Hin) as [content Hf].
    apply (@all_files_components (fun _ => true)) in Hf
      as (cs & Hne & Hcs & ->); auto.
    - apply abspath_not_cwd; [assumption | discriminate|].
      constructor; [exact Hd|].
      eapply Forall_impl; [|exact Hcs]. intros c [Hok _]. exact Hok.
    - apply forallb_forall. intros x _. apply names_ok_trivial. }
  split; [exact Hu|].
  unfold flagged. cbn [fst snd]. rewrite Hu. apply andb_false_r.
Qed.

Lemma empty_output_means_used_witness :
  usages_of "/work" "" "src/a.ts" = [""]
  /\ is_used "/work" silent "Foo" "src/a.ts" "src" = Ok true
  /\ flagged "/work" silent "src" ("src/lib/b.tsx", "Widget") = false.
Proof.
  destruct (@empty_output_means_used "/work" silent "Foo" "src" eq_refl)
    as [H1 _].
  destruct (@empty_output_means_used "/work" silent "Widget" "src" eq_refl)
    as [_ H2].
  split; [|split].
  - apply H1. vm_compute. discriminate.
  - apply H1. vm_compute. discriminate.
  - apply (H2 sample_tree
             [("src/a.ts", "Foo"); ("src/a.ts", "Bar");
              ("src/lib/b.tsx", "Widget")] "src/lib/b.tsx");
      try (vm_compute; reflexivity).
    right; right; left; reflexivity.
Defined.

(** ** Reading the output of the search *)

Lemma lines_cons p paths :
  lines (p :: paths) = p ++ [chr_newline] ++ lines paths.
Proof. unfold lines. simpl. rewrite <- app_assoc. reflexivity. Qed.


Lemma lines_join paths :
  paths <> [] -> lines paths = join_with [chr_newline] paths ++ [chr_newline].
Proof.
  induction paths as [|p paths IH]; intros Hne; [contradiction|].
  rewrite lines_cons. destruct paths as [|q paths].
  - reflexivity.
  - rewrite IH by discriminate.
    change (join_with [chr_newline] (p :: q :: paths))
      with (p ++ [chr_newline] ++ join_with [chr_newline] (q :: paths)).
    rewrite <- !app_assoc. reflexivity.
Qed.

Lemma lstrip_clean s : starts_clean s -> lstrip s = s.
Proof.
  intros (c & t & -> & Hc). unfold lstrip. simpl. rewrite Hc. reflexivity.
Qed.

Lemma rstrip_newline s : ends_clean s -> rstrip (s ++ [chr_newline]) = s.
Proof.
  intros (t & c & -> & Hc). unfold rstrip.
  rewrite !rev_app_distr. simpl. rewrite Hc. simpl.
  rewrite rev_involutive. reflexivity.
Qed.

Lemma strip_line s :
  starts_clean s -> ends_clean s -> strip (s ++ [chr_newline]) = s.
Proof.
  intros Hs He. unfold strip. rewrite lstrip_clean.
  - apply rstrip_newline; assumption.
  - destruct Hs as (c & t & -> & Hc). exists c, (t ++ [chr_newline]). auto.
Qed.

Lemma join_starts_clean sep p paths :
  starts_clean p -> starts_clean (join_with sep (p :: paths)).
Proof.
  intros (c & t & -> & Hc). destruct paths as [|q paths].
  - exists c, t. auto.
  - exists c, (t ++ sep ++ join_with sep (q :: paths)). auto.
Qed.

Lemma join_ends_clean sep (paths : list str) :
  paths <> [] -> ends_clean (last paths []) ->
  ends_clean (join_with sep paths).
Proof.
  induction paths as [|p paths IH]; intros Hne Hl; [contradiction|].
  destruct paths as [|q paths]; [exact Hl|].
  destruct (IH ltac:(discriminate) Hl) as (t & c & E & Hc).
  exists (p ++ sep ++ t), c. split; [|exact Hc].
  change (join_with sep (p :: q :: paths))
    with (p ++ sep ++ join_with sep (q :: paths)).
  rewrite E, <- !app_assoc. reflexivity.
Qed.








(** ** The files matched and the lines read *)

Lemma begins_with_text_spec s : begins_with_text s = true -> starts_clean s.
Proof.
  destruct s as [|c t]; [discriminate|]. cbn [begins_with_text].
  intros H. apply negb_true_iff in H. exists c, t. auto.
Qed.

Lemma ends_with_text_spec s : ends_with_text s = true -> ends_clean s.
Proof.
  unfold ends_with_text. intros H.
  apply begins_with_text_spec in H as (c & t & E & Hc).
  exists (rev t), c. split; [|exact Hc].
  apply (f_equal (@rev ascii)) in E. rewrite rev_involutive in E.
  rewrite E. reflexivity.
Qed.

Lemma no_line_break_spec f : no_line_break f = true -> ~ In chr_newline f.
Proof.
  unfold no_line_break. intros H Hin. rewrite forallb_forall in H.
  specialize (H _ Hin). rewrite Ascii.eqb_refl in H. discriminate.
Qed.

(** The paths printed by the search are read back as they were printed
    when they stay whole. *)
Lemma matched_files_lines hits :
  whole_lines hits = true -> matched_files (lines hits) = hits.
Proof.
  destruct hits as [|h hits]; [discriminate|]. cbn [whole_lines].
  rewrite !andb_true_iff. intros [[Hs He] Hn].
  unfold matched_files. rewrite lines_join by discriminate.
  rewrite strip_line.
  - apply split_on_join; [discriminate|].
    apply Forall_forall. intros f Hf. apply no_line_break_spec.
    rewrite forallb_forall in Hn. apply Hn. exact Hf.
  - apply join_starts_clean, begins_with_text_spec. exact Hs.
  - apply join_ends_clean; [discriminate|].
    apply ends_with_text_spec. exact He.
Qed.

(** C2 (as amended): let the search end with status 0 and print the paths
    of the files it matched, one to a line, and let these paths stay whole
    when the output is read: one file at least, no line break in a path,
    no white space at the very beginning or the very end.  Then the
    symbol is "used" exactly when a matched file is left that is neither
    the defining file (absolute paths compared) nor a test file, and "not
    used" exactly when every matched file is the defining file or a test
    file.  A search that ends with another status gives "not used".  In
    particular a collected symbol that only its defining file and test
    files mention is printed as unused when the run ends. *)
Theorem used_iff_other_file_remains tree cwd search name definition_file
    directory :
  (forall hits,
     search name directory = Output (lines hits) ->
     whole_lines hits = true ->
     (is_used cwd search name definition_file directory = Ok true <->
      exists f, In f hits
                /\ abspath cwd f <> abspath cwd definition_file
                /\ is_test_path f = false)
     /\ (is_used cwd search name definition_file directory = Ok false <->
         forall f, In f hits ->
                   abspath cwd f = abspath cwd definition_file
                   \/ is_test_path f = true))
  /\ (forall code,
        search name directory = CalledProcessError code ->
        is_used cwd search name definition_file directory = Ok false)
  /\ (forall exports hits,
        get_exports tree "src" = Ok exports ->
        checks_return cwd search "src" exports ->
        In (definition_file, name) exports -> is_keyword name = false ->
        search name "src" = Output (lines hits) ->
        whole_lines hits = true ->
        (forall f, In f hits ->
                   abspath cwd f = abspath cwd definition_file
                   \/ is_test_path f = true) ->
        In (notice (definition_file, name)) (snd (main tree cwd search []))
        /\ In (summary_line (definition_file, name))
              (snd (main tree cwd search []))).
Proof.
  destruct (is_used_cases cwd search name definition_file directory)
    as [H1 H2].
  split; [|split].
  - intros hits S W. pose proof (matched_files_lines hits W) as M. split.
    + rewrite H1. split.
      * intros (o & Ho & f & Hf & Ha & Ht). rewrite S in Ho.
        inversion Ho; subst o. rewrite M in Hf. eauto.
      * intros (f & Hf & Ha & Ht). exists (lines hits).
        split; [exact S|]. exists f. rewrite M. auto.
    + rewrite H2. split.
      * intros [[code C]|(o & Ho & H)]; [congruence|]. rewrite S in Ho.
        inversion Ho; subst o. rewrite M in H. exact H.
      * intros H. right. exists (lines hits). split; [exact S|].
        rewrite M. exact H.
  - intros code C. apply H2. left. exists code. exact C.
  - intros exports hits Hex Hc Hin Hk Hs W Hall.
    eapply unused_record_is_printed; eauto.
    apply (is_used_cases cwd search name definition_file "src").
    right. exists (lines hits). split; [exact Hs|].
    rewrite (matched_files_lines hits W). exact Hall.
Qed.

Lemma used_iff_other_file_remains_witness :
  In (notice ("src/a.ts", "Foo"))
     (snd (main sample_tree "/work" (grep sample_mentions sample_tree) []))
  /\ In (summary_line ("src/a.ts", "Foo"))
        (snd (main sample_tree "/work" (grep sample_mentions sample_tree)
                [])).
Proof.
  destruct (used_iff_other_file_remains sample_tree "/work"
              (grep sample_mentions sample_tree) "Foo" "src/a.ts" "src")
    as (_ & _ & H).
  refine (H [("src/a.ts", "Foo"); ("src/a.ts", "Bar");
             ("src/lib/b.tsx", "Widget")]
            ["src/a.ts"; "src/lib/b.test.tsx"] _ _ _ _ _ _ _).
  - vm_compute; reflexivity.
  - intros r _ _. unfold is_used, grep.
    destruct (existsb unreadable (all_files "src" sample_tree)); [eauto|].
    destruct (filter (sample_mentions (snd r))
                (all_files "src" sample_tree));
      eauto.
  - left; reflexivity.
  - vm_compute; reflexivity.
  - vm_compute; reflexivity.
  - vm_compute; reflexivity.
  - intros f Hf.
    destruct Hf as [<-|[<-|[]]]; [left | right]; vm_compute; reflexivity.
Defined.

(** C2 (counterexample): what the check reads is the output cut into
    lines, which is not always the files that the search matched.  Below
    a directory whose name holds a line break the only file matched is the
    defining file, and the symbol is "used"; a matched file that is
    neither the defining file nor a test file, its name ending in a space
    after [.test.ts], is read without the space when it is printed last,
    and the symbol is "not used"; and when the output is empty, no file
    being matched, the symbol is "used". *)
Lemma lines_read_are_not_the_files_matched :
  (grep sample_mentions newline_tree "Foo" "src"
   = Output (lines ["src/old
new/a.ts"])
   /\ is_used "/work" (grep sample_mentions newline_tree) "Foo" "src/old
new/a.ts" "src" = Ok true)
  /\ (grep sample_mentions trailing_space_tree "Foo" "src"
      = Output (lines ["src/a.ts"; "src/b.test.ts "])
      /\ str_eqb (abspath "/work" "src/b.test.ts ")
           (abspath "/work" "src/a.ts") = false
      /\ is_test_path "src/b.test.ts " = false
      /\ is_used "/work" (grep sample_mentions trailing_space_tree) "Foo"
           "src/a.ts" "src" = Ok false)
  /\ (silent "Foo" "src" = Output (lines [])
      /\ is_used "/work" silent "Foo" "src/a.ts" "src" = Ok true).
Proof. vm_compute. repeat split; reflexivity. Qed.

(** ** The search over a tree *)







Lemma lit_mismatch s prev inp :
  startswith inp s = false -> lit s prev inp = None.
Proof.
  revert prev inp; induction s as [|c s IH]; intros prev inp H;
    [discriminate|].
  destruct inp as [|d inp]; [reflexivity|].
  rewrite startswith_cons in H. cbn [lit].
  destruct (Ascii.eqb c d); [apply IH; exact H | reflexivity].
Qed.




Lemma empty_when_no_member (A : Type) (l : list A) :
  (forall x, ~ In x l) -> l = [].
Proof.
  destruct l as [|x l]; [reflexivity|]. intros H.
  exfalso. apply (H x). left; reflexivity.
Qed.

(** ** Telling the lines of the report apart *)

Lemma split_at_first_space (a b x y : str) :
  ~ In " "%char a -> ~ In " "%char b ->
  a ++ " "%char :: x = b ++ " "%char :: y -> a = b /\ x = y.
Proof.
  revert b; induction a as [|c a IH]; intros [|d b] Ha Hb H; simpl in H.
  - inversion H. auto.
  - inversion H; subst. exfalso. apply Hb. left; reflexivity.
  - inversion H; subst. exfalso. apply Ha. left; reflexivity.
  - inversion H; subst. destruct (IH b) as [-> ->]; auto.
    + intros Hin. apply Ha. right; exact Hin.
    + intros Hin. apply Hb. right; exact Hin.
Qed.

Lemma ident_name_no_space n : ident_name n -> ~ In " "%char n.
Proof.
  intros [_ H] Hin. rewrite forallb_forall in H. specialize (H _ Hin).
  discriminate.
Qed.

Lemma notice_injective p n p' n' :
  ident_name n -> ident_name n' ->
  notice (p, n) = notice (p', n') -> (p, n) = (p', n').
Proof.
  intros Hn Hn' H. unfold notice in H. cbn [fst snd] in H.
  apply app_inv_head in H.
  change (" in " ++ p) with (" "%char :: "in " ++ p) in H.
  change (" in " ++ p') with (" "%char :: "in " ++ p') in H.
  apply split_at_first_space in H as [-> H];
    auto using ident_name_no_space.
  apply app_inv_head in H. subst. reflexivity.
Qed.

Lemma summary_line_injective p n p' n' :
  ident_name n -> ident_name n' ->
  summary_line (p, n) = summary_line (p', n') -> (p, n) = (p', n').
Proof.
  intros Hn Hn' H. unfold summary_line in H. cbn [fst snd] in H.
  apply (f_equal (@rev ascii)) in H. rewrite !rev_app_distr in H.
  change (rev ": ") with (" "%char :: ":") in H.
  rewrite <- !app_assoc in H. cbn [app] in H.
  apply split_at_first_space in H as [Hr H].
  - apply (f_equal (@rev ascii)) in Hr. rewrite !rev_involutive in Hr.
    inversion H as [Hp]. apply (f_equal (@rev ascii)) in Hp.
    rewrite !rev_involutive in Hp. subst. reflexivity.
  - rewrite <- in_rev. apply ident_name_no_space; assumption.
  - rewrite <- in_rev. apply ident_name_no_space; assumption.
Qed.

(** A record that is not in the list of the reported ones has neither its
    notice nor its summary line in the output. *)
Lemma unreported_has_no_line unused p n k :
  (forall r, In r unused -> ident_name (snd r) /\ under_src (fst r)) ->
  ident_name n -> under_src p -> ~ In (p, n) unused ->
  ~ In (notice (p, n)) (progress k ++ report unused)
  /\ ~ In (summary_line (p, n)) (progress k ++ report unused).
Proof.
  intros HU Hn [t ->] Hnot. unfold progress, report.
  split; intros H; rewrite !in_app_iff in H;
    destruct H as [H|[H|[H|[H|H]]]].
  - destruct H as [H|[H|[]]]; discriminate.
  - apply in_map_iff in H as ([p' n'] & E & Hin).
    destruct (HU _ Hin) as [Hn' _]. cbn [snd] in Hn'.
    apply notice_injective in E; auto. inversion E; subst. auto.
  - destruct H as [H|[]]. discriminate.
  - destruct unused; [destruct H as [H|[]]; discriminate | contradiction].
  - apply in_map_iff in H as ([p' n'] & E & Hin).
    destruct (HU _ Hin) as [_ [t' Hp']]. cbn [fst] in Hp'. subst p'.
    discriminate.
  - destruct H as [H|[H|[]]]; discriminate.
  - apply in_map_iff in H as ([p' n'] & E & Hin). discriminate.
  - destruct H as [H|[]]. discriminate.
  - destruct unused; [destruct H as [H|[]]; discriminate | contradiction].
  - apply in_map_iff in H as ([p' n'] & E & Hin).
    destruct (HU _ Hin) as [Hn' _]. cbn [snd] in Hn'.
    apply summary_line_injective in E; auto. inversion E; subst. auto.
Qed.

Lemma collected_record_shape tree exports r :
  valid_tree tree = true ->
  get_exports tree "src" = Ok exports -> In r exports ->
  ident_name (snd r) /\ under_src (fst r).
Proof.
  intros Hv He Hin. destruct r as [path name]. cbn [fst snd]. split.
  - apply get_exports_ok in He. subst exports.
    apply in_exports_of_dirs in Hin
      as (root & files & file & content & _ & _ & _ & Hin).
    apply file_exports_sound in Hin as [_ Hn]. exact Hn.
  - destruct (@collected_path_is_file tree "src" exports path name He Hin)
      as [content Hf].
    apply (@all_files_components (fun _ => true)) in Hf
      as (cs & Hne & _ & ->); auto; [| reflexivity |].
    + destruct cs; [contradiction|]. eexists. reflexivity.
    + apply forallb_forall. intros x _. apply names_ok_trivial.
Qed.

(** ** Keywords *)

(** The shape of what [main] prints, also when an exception cuts the run
    short: the reported records are collected records that were flagged. *)
Lemma main_output_shape tree cwd search :
  exists (n : nat) (unused : list record),
    (forall r, In r unused ->
       flagged cwd search "src" r = true
       /\ exists exports, get_exports tree "src" = Ok exports
                          /\ In r exports)
    /\ (snd (main tree cwd search []) = ["Scanning src for exports..."]
        \/ snd (main tree cwd search []) = progress n ++ map notice unused
        \/ snd (main tree cwd search []) = progress n ++ report unused).
Proof.
  rewrite main_unfold.
  destruct (get_exports tree "src") as [exports|e] eqn:He.
  - destruct (check_exports_inv cwd search "src" exports []
                (progress (length exports))) as (added & Ho & Ha & Hu).
    exists (length exports), added. split.
    { intros r Hr. destruct (Ha r Hr) as [Hin F]. split; [exact F|].
      exists exports. auto. }
    destruct (check_exports cwd search "src" exports []
                (progress (length exports))) as [[u|e] out] eqn:C;
      cbn [fst snd] in Ho, Hu |- *.
    + right; right. rewrite (Hu u eq_refl) in *. cbn [app]. subst out.
      unfold report. rewrite <- !app_assoc. reflexivity.
    + right; left. exact Ho.
  - exists 0, []. split; [intros r []|]. left. reflexivity.
Qed.

Lemma flagged_not_keyword cwd search src_dir r :
  flagged cwd search src_dir r = true -> is_keyword (snd r) = false.
Proof.
  unfold flagged. intros F. apply andb_true_iff in F as [F _].
  apply negb_true_iff in F. exact F.
Qed.

Lemma keyword_is_ident kw : is_keyword kw = true -> ident_name kw.
Proof.
  unfold is_keyword. intros H. apply existsb_exists in H as (k & Hk & E).
  apply str_eqb_eq in E. subst k.
  repeat (destruct Hk as [<-|Hk]; [split; [discriminate | reflexivity]|]).
  contradiction.
Qed.

(** C7: the records that [main] reports, in the notices and in the summary
    alike, never carry one of the six keywords as their name, whatever the
    files contain and whatever the search answers, also when an exception
    cuts the run short; and no line of the output is the notice or the
    summary line of a record with such a name. *)
Theorem keywords_never_reported tree cwd search :
  (exists (n : nat) (unused : list record),
     (forall r, In r unused -> is_keyword (snd r) = false)
     /\ (snd (main tree cwd search []) = ["Scanning src for exports..."]
         \/ snd (main tree cwd search []) = progress n ++ map notice unused
         \/ snd (main tree cwd search []) = progress n ++ report unused))
  /\ (valid_tree tree = true ->
      forall path kw,
        is_keyword kw = true -> under_src path ->
        ~ In (notice (path, kw)) (snd (main tree cwd search []))
        /\ ~ In (summary_line (path, kw)) (snd (main tree cwd search []))).
Proof.
  destruct (main_output_shape tree cwd search) as (n & unused & HU & Hout).
  split.
  - exists n, unused. split; [|exact Hout].
    intros r Hr. destruct (HU r Hr) as [F _].
    eapply flagged_not_keyword; exact F.
  - intros Hv path kw Hk Hp.
    assert (Hline : ~ In (notice (path, kw)) (progress n ++ report unused)
                    /\ ~ In (summary_line (path, kw))
                            (progress n ++ report unused)).
    { apply unreported_has_no_line; auto using keyword_is_ident.
      - intros r Hr. destruct (HU r Hr) as [_ (exports & He & Hin)].
        eapply collected_record_shape; eauto.
      - intros Hin. destruct (HU _ Hin) as [F _].
        apply flagged_not_keyword in F. cbn [snd] in F. congruence. }
    assert (Hsub : forall line, In line (snd (main tree cwd search [])) ->
                                In line (progress n ++ report unused)).
    { intros line Hin. destruct Hout as [E|[E|E]]; rewrite E in Hin.
      - destruct Hin as [<-|[]]. left; reflexivity.
      - unfold report. rewrite in_app_iff in Hin.
        rewrite !in_app_iff. tauto.
      - exact Hin. }
    destruct Hline as [H1 H2]. split; intros Hin; [apply H1|apply H2];
      apply Hsub; exact Hin.
Qed.

Lemma keywords_never_reported_witness :
  get_exports keyword_tree "src" = Ok [("src/k.ts", "function")]
  /\ ~ In "Potentially unused: function in src/k.ts"
          (snd (main keyword_tree "/work"
                  (grep sample_mentions keyword_tree) []))
  /\ ~ In "src/k.ts: function"
          (snd (main keyword_tree "/work"
                  (grep sample_mentions keyword_tree) [])).
Proof.
  split; [vm_compute; reflexivity|].
  destruct (keywords_never_reported keyword_tree "/work"
              (grep sample_mentions keyword_tree))
    as [_ H].
  apply (H eq_refl "src/k.ts" "function"); [reflexivity|].
  eexists. reflexivity.
Defined.

(** ** The example of the specification *)




Section FooExample.
Variable mentions : str -> str * read_result -> bool.
Variable tree : list entry.
Variable cwd : str.
Variable p content : str.

Hypothesis cwd_absolute : startswith cwd "/" = true.
Hypothesis names_valid : valid_tree tree = true.
Hypothesis p_eligible : eligible p = true.
Hypothesis p_is_file : In (p, Text content) (all_files "src" tree).


End FooExample.




(** * Further properties of the code *)

(** ** Files that are not sources *)

Lemma collect_files_eligible_only root files : forall acc,
  collect_files root files acc
  = collect_files root (eligible_only files) acc.
Proof.
  induction files as [|[file data] files IH]; intros acc; [reflexivity|].
  unfold eligible_only. cbn [collect_files filter fst].
  destruct (eligible file) eqn:E.
  - cbn [collect_files]. rewrite E.
    destruct data as [content|]; [apply IH | reflexivity].
  - apply IH.
Qed.

Lemma collect_dirs_eligible_only dirs : forall acc,
  collect_dirs dirs acc
  = collect_dirs (map (fun d => (fst d, eligible_only (snd d))) dirs) acc.
Proof.
  induction dirs as [|[root files] dirs IH]; intros acc; [reflexivity|].
  cbn [collect_dirs map fst snd].
  rewrite <- collect_files_eligible_only.
  destruct (collect_files root files acc); [apply IH | reflexivity].
Qed.

(** X2: a file whose name fails the test of line 16 is never opened: the
    collector gives the same result, records or exception, on the listings
    reduced to their eligible files, so that two directories with the same
    eligible files are collected alike whatever else they hold. *)
Theorem ineligible_files_are_not_opened tree directory :
  get_exports tree directory
  = collect_dirs
      (map (fun d => (fst d, eligible_only (snd d))) (os_walk directory tree))
      []
  /\ forall root files1 files2 acc,
       eligible_only files1 = eligible_only files2 ->
       collect_files root files1 acc = collect_files root files2 acc.
Proof.
  split; [apply collect_dirs_eligible_only|].
  intros root files1 files2 acc H.
  rewrite (collect_files_eligible_only root files1),
    (collect_files_eligible_only root files2), H.
  reflexivity.
Qed.

Lemma ineligible_files_are_not_opened_witness :
  collect_files "src"
    [("a.ts", Text "export const A = 1;"); ("a.test.ts", Unreadable)] []
  = collect_files "src"
      [("notes.md", Unreadable); ("a.ts", Text "export const A = 1;")] [].
Proof.
  apply (proj2 (ineligible_files_are_not_opened [] "src")).
  reflexivity.
Defined.

Lemma exports_of_dirs_no_eligible tree directory :
  no_eligible_file tree directory ->
  exports_of_dirs (os_walk directory tree) = [].
Proof.
  intros H. apply empty_when_no_member. intros [p n] Hin.
  apply in_exports_of_dirs in Hin
    as (root & files & file & content & Hd & Hf & El & _).
  rewrite (H root files file (Text content) Hd Hf) in El. discriminate.
Qed.

(** X1: when no file below the scanned directory is eligible, the run ends
    normally with exactly four lines - zero exports and no unused export -
    whatever the search would answer and whether or not the files can be
    read: nothing is opened and the search is never run. *)
Theorem nothing_to_scan_prints_four_lines tree cwd search :
  no_eligible_file tree "src" ->
  get_exports tree "src" = Ok []
  /\ main tree cwd search []
     = (Ok tt,
        ["Scanning src for exports..."; "Found 0 exports. Checking usage...";
         summary_header; "No unused exports found."]).
Proof.
  intros H.
  assert (Hr : tree_readable tree "src").
  { intros root files Hd file Hf. exact (H root files file _ Hd Hf). }
  assert (He : get_exports tree "src" = Ok []).
  { rewrite (@get_exports_total tree "src" Hr).
    rewrite exports_of_dirs_no_eligible by exact H. reflexivity. }
  split; [exact He|].
  rewrite (@main_run tree cwd search [] He); [reflexivity|].
  intros r [].
Qed.

Lemma nothing_to_scan_prints_four_lines_witness :
  main docs_tree "/work" no_grep []
  = (Ok tt,
     ["Scanning src for exports..."; "Found 0 exports. Checking usage...";
      summary_header; "No unused exports found."]).
Proof.
  apply nothing_to_scan_prints_four_lines.
  intros root files file data Hd Hf. vm_compute in Hd.
  destruct Hd as [Hd|[Hd|[]]]; inversion Hd; subst; clear Hd;
    vm_compute in Hf.
  - destruct Hf as [Hf|[Hf|[]]]; inversion Hf; subst; vm_compute;
      reflexivity.
  - destruct Hf as [Hf|[]]; inversion Hf; subst; vm_compute; reflexivity.
Defined.

(** ** When a source cannot be read *)

Lemma collect_files_raises root files : forall acc e,
  collect_files root files acc = Raise e ->
  e = OSError
  /\ exists file, In (file, Unreadable) files /\ eligible file = true.
Proof.
  induction files as [|[file data] files IH]; intros acc e H;
    [discriminate|].
  cbn [collect_files] in H. destruct (eligible file) eqn:E.
  - destruct data as [content|].
    + apply IH in H as [-> (f & Hf & Ef)].
      split; [reflexivity|]. exists f. split; [right; exact Hf | exact Ef].
    + inversion H. split; [reflexivity|]. exists file.
      split; [left; reflexivity | exact E].
  - apply IH in H as [-> (f & Hf & Ef)].
    split; [reflexivity|]. exists f. split; [right; exact Hf | exact Ef].
Qed.

Lemma collect_dirs_raises dirs : forall acc e,
  collect_dirs dirs acc = Raise e ->
  e = OSError
  /\ exists root files file,
       In (root, files) dirs /\ In (file, Unreadable) files
       /\ eligible file = true.
Proof.
  induction dirs as [|[root files] dirs IH]; intros acc e H;
    [discriminate|].
  cbn [collect_dirs] in H.
  destruct (collect_files root files acc) as [acc'|e'] eqn:C.
  - apply IH in H as [-> (r & fs & f & Hd & Hf & Ef)].
    split; [reflexivity|]. exists r, fs, f.
    split; [right; exact Hd | auto].
  - inversion H; subst e'.
    apply collect_files_raises in C as [-> (f & Hf & Ef)].
    split; [reflexivity|]. exists root, files, f.
    split; [left; reflexivity | auto].
Qed.

(** X3: the collector raises exactly when some eligible file cannot be
    read; the exception is then an [OSError], the records collected from
    the files before it are lost, and [main] has printed nothing but its
    first line. *)
Theorem unreadable_source_stops_the_run tree cwd search :
  (get_exports tree "src" = Raise OSError <->
   some_source_unreadable tree "src")
  /\ (forall e, get_exports tree "src" = Raise e -> e = OSError)
  /\ (some_source_unreadable tree "src" ->
      main tree cwd search []
      = (Raise OSError, ["Scanning src for exports..."])).
Proof.
  assert (Hback : some_source_unreadable tree "src" ->
                  get_exports tree "src" = Raise OSError).
  { intros (root & files & file & Hd & Hf & El).
    destruct (get_exports tree "src") as [l|e] eqn:G.
    - exfalso. unfold get_exports in G.
      pose proof (@collect_dirs_readable _ _ _ G root files Hd file Hf)
        as X.
      congruence.
    - unfold get_exports in G.
      apply collect_dirs_raises in G as [-> _]. reflexivity. }
  split; [|split].
  - split; [|exact Hback].
    intros G. unfold get_exports in G.
    apply collect_dirs_raises in G as [_ H]. exact H.
  - intros e G. unfold get_exports in G.
    apply collect_dirs_raises in G as [-> _]. reflexivity.
  - intros H. rewrite main_unfold, (Hback H). reflexivity.
Qed.

Lemma unreadable_source_stops_the_run_witness :
  main half_locked_tree "/work" (grep sample_mentions half_locked_tree) []
  = (Raise OSError, ["Scanning src for exports..."]).
Proof.
  apply unreadable_source_stops_the_run.
  exists "src/lib", [("b.ts", Unreadable)], "b.ts".
  split; [right; left; reflexivity|].
  split; [left; reflexivity | reflexivity].
Defined.

(** ** What the report depends on *)

Lemma is_used_search_ext cwd s1 s2 name path directory :
  s1 name directory = s2 name directory ->
  is_used cwd s1 name path directory = is_used cwd s2 name path directory.
Proof. intros H. unfold is_used. rewrite H. reflexivity. Qed.

Lemma check_exports_search_ext cwd s1 s2 src_dir exports :
  (forall r, In r exports -> is_keyword (snd r) = false ->
             s1 (snd r) src_dir = s2 (snd r) src_dir) ->
  forall unused out,
    check_exports cwd s1 src_dir exports unused out
    = check_exports cwd s2 src_dir exports unused out.
Proof.
  induction exports as [|[path name] exports IH]; intros H unused out;
    [reflexivity|].
  assert (H' : forall r, In r exports -> is_keyword (snd r) = false ->
                         s1 (snd r) src_dir = s2 (snd r) src_dir)
    by (intros r Hr; apply H; right; exact Hr).
  cbn [check_exports]. destruct (is_keyword name) eqn:K.
  - apply IH; exact H'.
  - unfold bind, lift.
    rewrite (@is_used_search_ext cwd s1 s2 name path src_dir
               (H (path, name) (or_introl eq_refl) K)).
    destruct (is_used cwd s2 name path src_dir) as [[|]|e]; cbn [negb];
      [apply IH; exact H' | | reflexivity].
    unfold print. apply IH; exact H'.
Qed.

(** X4: [main] consults the search only for the collected names that are
    not keywords, and only for the directory [src]: two searches that agree
    on those requests give the same run, output and exception alike, however
    they differ elsewhere. *)
Theorem report_depends_on_checked_names_only tree cwd s1 s2 :
  (forall exports r,
     get_exports tree "src" = Ok exports -> In r exports ->
     is_keyword (snd r) = false -> s1 (snd r) "src" = s2 (snd r) "src") ->
  main tree cwd s1 [] = main tree cwd s2 [].
Proof.
  intros H. rewrite !main_unfold.
  destruct (get_exports tree "src") as [exports|e] eqn:G; [|reflexivity].
  rewrite (@check_exports_search_ext cwd s1 s2 "src" exports
             (fun r => H exports r eq_refl)).
  reflexivity.
Qed.

Lemma report_depends_on_checked_names_only_witness :
  main sample_tree "/work" picky []
  = main sample_tree "/work" (grep sample_mentions sample_tree) [].
Proof.
  apply report_depends_on_checked_names_only.
  intros exports r He Hin _.
  assert (E : exports = [("src/a.ts", "Foo"); ("src/a.ts", "Bar");
                         ("src/lib/b.tsx", "Widget")])
    by (vm_compute in He; inversion He; reflexivity).
  subst exports.
  destruct Hin as [<-|[<-|[<-|[]]]]; reflexivity.
Defined.

(** ** When a check raises *)

Lemma check_exports_app cwd search src_dir l1 l2 : forall unused out,
  checks_return cwd search src_dir l1 ->
  check_exports cwd search src_dir (l1 ++ l2) unused out
  = check_exports cwd search src_dir l2
      (unused ++ filter (flagged cwd search src_dir) l1)
      (out ++ map notice (filter (flagged cwd search src_dir) l1)).
Proof.
  induction l1 as [|[path name] l1 IH]; intros unused out Hc;
    cbn [app check_exports filter].
  - cbn [map]. rewrite !app_nil_r. reflexivity.
  - assert (Hc' : checks_return cwd search src_dir l1)
      by (intros r Hr; apply Hc; right; exact Hr).
    destruct (is_keyword name) eqn:K.
    + assert (F : flagged cwd search src_dir (path, name) = false)
        by (unfold flagged; cbn [fst snd]; rewrite K; reflexivity).
      rewrite F. apply IH; assumption.
    + destruct (Hc (path, name) (or_introl eq_refl) K) as [b Hb].
      cbn [fst snd] in Hb.
      assert (F : flagged cwd search src_dir (path, name) = negb b)
        by (unfold flagged; cbn [fst snd]; rewrite K, Hb;
            destruct b; reflexivity).
      rewrite F. unfold bind, lift. rewrite Hb.
      destruct b; cbn [negb]; [apply IH; assumption|].
      unfold print. rewrite IH by assumption. cbn [map].
      rewrite <- !app_assoc. reflexivity.
Qed.

(** X5: when the search for a collected name raises, [main] stops there
    with that exception: the notices of the records flagged before it have
    been printed, and neither a later notice nor the summary follows. *)
Theorem failing_check_cuts_the_report tree cwd search before path name
    after e :
  get_exports tree "src" = Ok (before ++ (path, name) :: after) ->
  checks_return cwd search "src" before ->
  is_keyword name = false ->
  search name "src" = Failure e ->
  main tree cwd search []
  = (Raise e,
     progress (length (before ++ (path, name) :: after))
     ++ map notice (filter (flagged cwd search "src") before)).
Proof.
  intros He Hc Hk Hs. rewrite main_unfold, He.
  rewrite check_exports_app by exact Hc.
  cbn [check_exports]. rewrite Hk. unfold bind, lift, is_used.
  rewrite Hs. reflexivity.
Qed.

Lemma failing_check_cuts_the_report_witness :
  main sample_tree "/work" bar_breaks []
  = (Raise OSError,
     ["Scanning src for exports..."; "Found 3 exports. Checking usage...";
      "Potentially unused: Foo in src/a.ts"]).
Proof.
  apply (@failing_check_cuts_the_report sample_tree "/work" bar_breaks
           [("src/a.ts", "Foo")] "src/a.ts" "Bar"
           [("src/lib/b.tsx", "Widget")] OSError).
  - vm_compute; reflexivity.
  - intros r [<-|[]] _. exists false. reflexivity.
  - reflexivity.
  - reflexivity.
Defined.

(** ** Where the records of a file come from *)

Lemma patterns_need_export r prev inp :
  In r patterns -> startswith inp "export" = false ->
  match_at r prev inp = None.
Proof.
  intros Hr H. unfold patterns in Hr.
  destruct Hr as [<-|[<-|[<-|[]]]];
    unfold match_at, pattern_decl, pattern_default, pattern_braces, cat;
    cbn [fold_right exec]; rewrite lit_mismatch by exact H; reflexivity.
Qed.

Lemma scan_bounded r : In r patterns ->
  forall inp prev skip, length (scan r prev inp skip) <= export_starts inp.
Proof.
  intros Hr. induction inp as [|c inp IH]; intros prev skip.
  - destruct skip; cbn [scan]; [|simpl; lia].
    rewrite patterns_need_export by (auto; reflexivity). simpl. lia.
  - cbn [export_starts]. destruct skip as [|n]; cbn [scan].
    + destruct (startswith (c :: inp) "export") eqn:S.
      * destruct (match_at r prev (c :: inp)) as [[m g]|]; cbn [length].
        -- specialize (IH (Some c) (length m - 1)). lia.
        -- specialize (IH (Some c) 0). lia.
      * rewrite patterns_need_export by assumption.
        specialize (IH (Some c) 0). lia.
    + specialize (IH (Some c) n). lia.
Qed.

Lemma length_flat_map_le (A B : Type) (f : A -> list B) (l : list A) n :
  (forall x, In x l -> length (f x) <= n) ->
  length (flat_map f l) <= length l * n.
Proof.
  induction l as [|x l IH]; intros H; simpl; [lia|].
  rewrite length_app.
  assert (length (f x) <= n) by (apply H; left; reflexivity).
  assert (length (flat_map f l) <= length l * n)
    by (apply IH; intros y Hy; apply H; right; exact Hy).
  lia.
Qed.

(** X6: every record of a file comes from an occurrence of the text
    [export]: each pattern gives at most one match per position at which
    [export] begins, a file gives at most three records per such position,
    and a file in which [export] does not occur gives none. *)
Theorem records_bounded_by_export_occurrences path content :
  (forall r, In r patterns ->
             length (finditer r content) <= export_starts content)
  /\ length (file_exports path content) <= 3 * export_starts content
  /\ (export_starts content = 0 -> file_exports path content = []).
Proof.
  assert (H1 : forall r, In r patterns ->
                 length (finditer r content) <= export_starts content)
    by (intros r Hr; apply scan_bounded; exact Hr).
  assert (H2 : length (file_exports path content)
               <= 3 * export_starts content).
  { unfold file_exports.
    change 3 with (length patterns).
    apply length_flat_map_le. intros r Hr.
    specialize (H1 r Hr).
    eapply Nat.le_trans; [|exact H1].
    eapply Nat.le_trans;
      [apply length_flat_map_le with (n := 1);
       intros [[|c n]|] _; simpl; lia
      | rewrite Nat.mul_1_r; apply Nat.le_refl]. }
  split; [exact H1|]. split; [exact H2|].
  intros Z. rewrite Z in H2.
  destruct (file_exports path content); [reflexivity | simpl in H2; lia].
Qed.

Lemma records_bounded_by_export_occurrences_witness :
  file_exports "src/a.ts" "import { x } from './y'; const z = 1;" = [].
Proof.
  apply records_bounded_by_export_occurrences. vm_compute. reflexivity.
Defined.

Lemma exec_consumes (R : Type) r :
  forall prev inp g (k : cont R) x,
    exec r prev inp g k = Some x ->
    exists p i g' m,
      inp = m ++ i /\ (g' = g \/ group_within m g')
      /\ k p i g' m = Some x.
Proof.
  induction r as [s|greedy min cls| |r IH|r1 IH1 r2 IH2|r1 IH1 r2 IH2];
    intros prev inp g k x H; cbn [exec] in H.
  - destruct (lit s prev inp) as [[p i]|] eqn:L; [|discriminate].
    apply lit_sound in L. exists p, i, g, s. auto.
  - apply rep_sound in H as (m & i & p & E & _ & _ & Hk).
    exists p, i, g, m. auto.
  - destruct (at_boundary prev inp); [|discriminate].
    exists prev, inp, g, []. auto.
  - apply IH in H as (p & i & g' & m & E & _ & Hk).
    exists p, i, (Some m), m. split; [exact E|]. split; [|exact Hk].
    right. exists [], []. rewrite app_nil_r. reflexivity.
  - destruct (exec r1 prev inp g k) eqn:E.
    + inversion H; subst. eapply IH1; eauto.
    + eapply IH2; eauto.
  - apply IH1 in H as (p1 & i1 & g1 & m1 & E1 & G1 & H).
    apply IH2 in H as (p2 & i2 & g2 & m2 & E2 & G2 & H).
    exists p2, i2, g2, (m1 ++ m2). split; [|split; [|exact H]].
    + rewrite E1, E2, app_assoc. reflexivity.
    + destruct G2 as [->|G2].
      * destruct G1 as [->|G1]; [left; reflexivity|]. right.
        destruct g1 as [n|]; [|exact I]. destruct G1 as (a & b & ->).
        exists a, (b ++ m2). rewrite <- !app_assoc. reflexivity.
      * right. destruct g2 as [n|]; [|exact I]. destruct G2 as (a & b & ->).
        exists (m1 ++ a), b. rewrite <- !app_assoc. reflexivity.
Qed.

Lemma match_at_within r prev inp m g :
  match_at r prev inp = Some (m, g) ->
  (exists i, inp = m ++ i) /\ group_within m g.
Proof.
  unfold match_at. intros H.
  apply exec_consumes in H as (p & i & g' & m' & E & G & H).
  inversion H; subst. split; [eauto|].
  destruct G as [->|G]; [exact I | exact G].
Qed.

Lemma scan_matches r g : forall inp prev skip,
  In g (scan r prev inp skip) ->
  exists pre suf prev' m,
    inp = pre ++ suf /\ match_at r prev' suf = Some (m, g).
Proof.
  induction inp as [|c inp IH]; intros prev skip H.
  - destruct skip; cbn [scan] in H; [|contradiction].
    destruct (match_at r prev []) as [[m g0]|] eqn:M; [|contradiction].
    destruct H as [<-|[]]. exists [], [], prev, m. auto.
  - destruct skip as [|n]; cbn [scan] in H.
    + destruct (match_at r prev (c :: inp)) as [[m g0]|] eqn:M.
      * destruct H as [<-|H]; [exists [], (c :: inp), prev, m; auto|].
        apply IH in H as (pre & suf & prev' & m' & -> & M').
        exists (c :: pre), suf, prev', m'. auto.
      * apply IH in H as (pre & suf & prev' & m' & -> & M').
        exists (c :: pre), suf, prev', m'. auto.
    + apply IH in H as (pre & suf & prev' & m' & -> & M').
      exists (c :: pre), suf, prev', m'. auto.
Qed.

Lemma pattern_match_begins_with_export r prev inp m g :
  In r patterns -> match_at r prev inp = Some (m, g) ->
  exists m', m = "export" ++ m' /\ group_within m' g.
Proof.
  intros Hr H. unfold patterns in Hr.
  destruct Hr as [<-|[<-|[<-|[]]]];
    unfold match_at, pattern_decl, pattern_default, pattern_braces, cat in H;
    cbn [fold_right] in H;
    match type of H with
    | exec (Cat (Lit ?s) ?r') _ _ _ _ = _ =>
        change (match lit s prev inp with
                | Some (p, i) =>
                    exec r' p i None
                      (fun _ _ g'' m2 => Some (s ++ m2, g''))
                | None => None
                end = Some (m, g)) in H
    end;
    destruct (lit "export" prev inp) as [[p i]|]; try discriminate;
    apply exec_consumes in H as (p' & i' & g' & m' & _ & G & H);
    inversion H; subst; exists m'; (split; [reflexivity|]);
    (destruct G as [->|G]; [exact I | exact G]).
Qed.

(** X7: a collected name is text of the file it is collected from: it
    occurs there after an occurrence of [export], within the same match. *)
Theorem collected_name_occurs_after_export path content p n :
  In (p, n) (file_exports path content) ->
  exists before between after,
    content = before ++ "export" ++ between ++ n ++ after.
Proof.
  unfold file_exports. rewrite in_flat_map.
  intros (r & Hr & H). rewrite in_flat_map in H.
  destruct H as (g & Hg & H).
  destruct g as [[|c name]|]; try contradiction.
  destruct H as [H|[]]. inversion H; subst p n.
  unfold finditer in Hg.
  apply scan_matches in Hg as (pre & suf & prev' & m & -> & M).
  destruct (match_at_within _ _ _ M) as [[i ->] _].
  apply pattern_match_begins_with_export in M as (m' & -> & a & b & ->);
    [|exact Hr].
  exists pre, a, (b ++ i). rewrite <- !app_assoc. reflexivity.
Qed.

Lemma collected_name_occurs_after_export_witness :
  exists before between after,
    ("// x
export  default Widget;" : str)
    = before ++ "export" ++ between ++ "Widget" ++ after.
Proof.
  apply (@collected_name_occurs_after_export "src/w.ts" _ "src/w.ts").
  vm_compute. left. reflexivity.
Defined.

(** ** The collector, directory by directory *)

Lemma exports_of_dirs_app a b :
  exports_of_dirs (a ++ b) = exports_of_dirs a ++ exports_of_dirs b.
Proof. unfold exports_of_dirs. apply flat_map_app. Qed.

Lemma exports_of_walk directory tree :
  exports_of_dirs (os_walk directory tree)
  = exports_of_files directory (files_of tree)
    ++ concat
         (map (fun e =>
                 match e with
                 | Dir name children =>
                     exports_of_dirs
                       (os_walk (path_join directory name) children)
                 | File _ _ => []
                 end) tree).
Proof.
  unfold os_walk at 1.
  change (exports_of_dirs
            ((directory, files_of tree)
             :: flat_map (walk_entry directory) tree))
    with (exports_of_files directory (files_of tree)
          ++ exports_of_dirs (flat_map (walk_entry directory) tree)).
  f_equal. induction tree as [|e tree IH]; [reflexivity|].
  cbn [flat_map map concat]. rewrite exports_of_dirs_app, IH.
  destruct e as [name data|name children]; reflexivity.
Qed.

Lemma walk_of_subdirectory directory tree name children root files :
  In (Dir name children) tree ->
  In (root, files) (os_walk (path_join directory name) children) ->
  In (root, files) (os_walk directory tree).
Proof.
  intros He Hin. unfold os_walk at 1. right.
  apply in_flat_map. exists (Dir name children). split; [exact He|].
  exact Hin.
Qed.

Lemma get_exports_readable tree directory l :
  get_exports tree directory = Ok l -> tree_readable tree directory.
Proof.
  intros H root files Hin. unfold get_exports in H.
  eapply collect_dirs_readable; eauto.
Qed.

Lemma Forall2_map_right (A B : Type) (R : A -> B -> Prop) (f : A -> B) l :
  (forall x, In x l -> R x (f x)) -> Forall2 R l (map f l).
Proof.
  induction l as [|x l IH]; intros H; constructor.
  - apply H. left; reflexivity.
  - apply IH. intros y Hy. apply H. right; exact Hy.
Qed.

Lemma collected_below_concat directory tree subs :
  Forall2 (collected_below directory) tree subs ->
  concat subs
  = concat
      (map (fun e =>
              match e with
              | Dir name children =>
                  exports_of_dirs
                    (os_walk (path_join directory name) children)
              | File _ _ => []
              end) tree).
Proof.
  induction 1 as [|e sub tree subs He _ IH]; [reflexivity|].
  cbn [map concat]. rewrite IH. f_equal.
  destruct e as [name data|name children]; cbn [collected_below] in He.
  - exact He.
  - apply get_exports_ok in He. exact He.
Qed.

Lemma collected_below_readable directory tree subs name children :
  Forall2 (collected_below directory) tree subs ->
  In (Dir name children) tree ->
  tree_readable children (path_join directory name).
Proof.
  induction 1 as [|e sub tree subs He _ IH]; intros Hin; [contradiction|].
  destruct Hin as [->|Hin]; [|apply IH; exact Hin].
  cbn [collected_below] in He.
  apply (@get_exports_readable children (path_join directory name) sub He).
Qed.

(** X8: the collector works directory by directory, top down: it succeeds
    exactly when it succeeds on the files of the directory itself and on
    every sub-directory, collected under its own path, and its result is
    then the records of the files of the directory followed by those of
    the sub-directories, in the order of the listing. *)
Theorem get_exports_top_down tree directory exports :
  get_exports tree directory = Ok exports <->
  exists own subs,
    collect_files directory (files_of tree) [] = Ok own
    /\ Forall2 (collected_below directory) tree subs
    /\ exports = own ++ concat subs.
Proof.
  split.
  - intros H.
    pose proof (@get_exports_readable tree directory exports H) as Hr.
    apply get_exports_ok in H. subst exports.
    exists (exports_of_files directory (files_of tree)),
      (map (fun e =>
              match e with
              | Dir name children =>
                  exports_of_dirs
                    (os_walk (path_join directory name) children)
              | File _ _ => []
              end) tree).
    split; [|split].
    + rewrite collect_files_total; [reflexivity|].
      apply (Hr directory). left. reflexivity.
    + apply Forall2_map_right. intros [name data|name children] He;
        [reflexivity|].
      cbn [collected_below]. apply get_exports_total.
      intros root files Hin. apply (Hr root).
      eapply walk_of_subdirectory; eauto.
    + apply exports_of_walk.
  - intros (own & subs & Hown & Hsubs & ->).
    assert (Hr : tree_readable tree directory).
    { intros root files Hin. unfold os_walk in Hin.
      destruct Hin as [Hin|Hin].
      - inversion Hin; subst.
        eapply collect_files_readable; exact Hown.
      - apply in_flat_map in Hin as ([name data|name children] & He & Hin);
          [contradiction|].
        apply (@collected_below_readable directory tree subs name children
                 Hsubs He root files Hin). }
    rewrite (@get_exports_total tree directory Hr), exports_of_walk.
    apply collect_files_ok in Hown. cbn [app] in Hown. subst own.
    rewrite (@collected_below_concat directory tree subs Hsubs).
    reflexivity.
Qed.

Lemma get_exports_top_down_witness :
  exists own subs,
    collect_files "src" (files_of sample_tree) [] = Ok own
    /\ Forall2 (collected_below "src") sample_tree subs
    /\ [("src/a.ts", "Foo"); ("src/a.ts", "Bar");
        ("src/lib/b.tsx", ("Widget" : str))] = own ++ concat subs.
Proof.
  apply get_exports_top_down. vm_compute. reflexivity.
Defined.

(** X13: nothing is dropped: when the collector succeeds, every record
    that the patterns give on the text of an eligible file of a walked
    directory is in the result, under the path of that file. *)
Theorem every_record_of_a_source_is_collected tree directory exports root
    files file content r :
  get_exports tree directory = Ok exports ->
  In (root, files) (os_walk directory tree) ->
  In (file, Text content) files -> eligible file = true ->
  In r (file_exports (path_join root file) content) ->
  In r exports /\ fst r = path_join root file.
Proof.
  intros He Hd Hf El Hin. apply get_exports_ok in He. subst exports.
  destruct r as [p n]. split.
  - apply in_exports_of_dirs. exists root, files, file, content. auto.
  - apply file_exports_sound in Hin as [-> _]. reflexivity.
Qed.

Lemma every_record_of_a_source_is_collected_witness :
  In ("src/lib/b.tsx", ("Widget" : str))
     [("src/a.ts", "Foo"); ("src/a.ts", "Bar"); ("src/lib/b.tsx", "Widget")].
Proof.
  apply (@every_record_of_a_source_is_collected sample_tree "src" _
           "src/lib"
           [("b.tsx", Text "import { Bar } from '../a';
export default Widget"); ("b.test.tsx", Text "Widget Foo")]
           "b.tsx" "import { Bar } from '../a';
export default Widget" ("src/lib/b.tsx", "Widget")).
  - vm_compute; reflexivity.
  - right; left; reflexivity.
  - left; reflexivity.
  - reflexivity.
  - vm_compute. left. reflexivity.
Defined.

(** X9: a collected path lies below the scanned directory: on a tree of
    valid names it is the directory, a slash, and one or more valid names
    separated by slashes, so that it has no [.] or [..] component and no
    empty one. *)
Theorem collected_path_lies_below_directory tree directory exports path
    name :
  valid_name directory = true -> valid_tree tree = true ->
  get_exports tree directory = Ok exports -> In (path, name) exports ->
  exists cs,
    cs <> [] /\ Forall (fun c => valid_name c = true) cs
    /\ path = directory ++ "/" ++ join_with "/" cs.
Proof.
  intros Hd Hv He Hin.
  destruct (@collected_path_is_file tree directory exports path name He Hin)
    as [content Hf].
  apply (@all_files_components (fun _ => true)) in Hf
    as (cs & Hne & Hcs & ->); auto.
  - exists cs. split; [exact Hne|]. split.
    + eapply Forall_impl; [|exact Hcs]. intros c [H _]. exact H.
    + destruct cs; [contradiction | reflexivity].
  - apply forallb_forall. intros x _. apply names_ok_trivial.
Qed.

Lemma collected_path_lies_below_directory_witness :
  exists cs,
    cs <> [] /\ Forall (fun c => valid_name c = true) cs
    /\ ("src/lib/b.tsx" : str) = "src" ++ "/" ++ join_with "/" cs.
Proof.
  apply (@collected_path_lies_below_directory sample_tree "src"
           [("src/a.ts", "Foo"); ("src/a.ts", "Bar");
            ("src/lib/b.tsx", "Widget")] "src/lib/b.tsx" "Widget");
    try (vm_compute; reflexivity).
  right; right; left; reflexivity.
Defined.

(** ** The usage check on plain paths *)

Lemma abspath_eqb_plain cwd f d :
  startswith cwd "/" = true -> plain_path f -> plain_path d ->
  str_eqb (abspath cwd f) (abspath cwd d) = str_eqb f d.
Proof.
  intros Hc (cs1 & N1 & F1 & ->) (cs2 & N2 & F2 & ->).
  destruct (str_eqb (join_with "/" cs1) (join_with "/" cs2)) eqn:E.
  - apply str_eqb_eq in E. rewrite E. apply str_eqb_refl.
  - apply str_eqb_neq. intros Ha. apply str_eqb_neq in E. apply E.
    apply abspath_injective in Ha; auto. rewrite Ha. reflexivity.
Qed.

Lemma nonempty_filter_existsb (A : Type) (f : A -> bool) l :
  (0 <? length (filter f l)) = existsb f l.
Proof.
  induction l as [|x l IH]; [reflexivity|].
  cbn [filter existsb]. destruct (f x); [reflexivity | exact IH].
Qed.

Lemma usages_of_plain cwd d l :
  startswith cwd "/" = true -> plain_path d ->
  (forall f, In f l -> plain_path f) ->
  filter (fun f => negb (endswith_any f [".test.ts"; ".test.tsx"]))
    (filter (fun f => negb (str_eqb (abspath cwd f) (abspath cwd d))) l)
  = filter (other_source d) l.
Proof.
  intros Hc Hd. induction l as [|f l IH]; intros Hf; [reflexivity|].
  assert (IH' := IH (fun x Hx => Hf x (or_intror Hx))).
  assert (E : other_source d f
              = negb (str_eqb f d)
                && negb (endswith_any f [".test.ts"; ".test.tsx"]))
    by reflexivity.
  cbn [filter]. rewrite E.
  rewrite abspath_eqb_plain by (auto; apply Hf; left; reflexivity).
  destruct (str_eqb f d); cbn [negb andb filter]; [exact IH'|].
  destruct (endswith_any f [".test.ts"; ".test.tsx"]); cbn [negb];
    [exact IH' | f_equal; exact IH'].
Qed.

(** X10: when the defining file and the paths that the search printed are
    relative paths made of valid names, comparing their absolute forms
    amounts to comparing them as they are: the check answers "used"
    exactly when some printed path differs from the defining file and is
    no test file, wherever the program is run from. *)
Theorem is_used_on_plain_paths cwd search name definition_file directory
    output :
  startswith cwd "/" = true ->
  plain_path definition_file ->
  search name directory = Output output ->
  (forall f, In f (matched_files output) -> plain_path f) ->
  is_used cwd search name definition_file directory
  = Ok (existsb (other_source definition_file) (matched_files output)).
Proof.
  intros Hc Hd Hs Hf. unfold is_used. rewrite Hs. f_equal.
  unfold usages_of. fold (matched_files output).
  rewrite usages_of_plain by assumption.
  apply nonempty_filter_existsb.
Qed.

Lemma is_used_on_plain_paths_witness :
  is_used "/work" lists_two "Foo" "src/a.ts" "src" = Ok true
  /\ is_used "/" lists_two "Widget" "src/lib/b.tsx" "src" = Ok true.
Proof.
  assert (P1 : plain_path "src/a.ts")
    by (exists ["src"; "a.ts"]; repeat split;
        [discriminate | repeat constructor]).
  assert (P2 : plain_path "src/lib/b.tsx")
    by (exists ["src"; "lib"; "b.tsx"]; repeat split;
        [discriminate | repeat constructor]).
  assert (P : forall f, In f (matched_files "src/a.ts
src/lib/b.tsx
") -> plain_path f).
  { intros f Hf. vm_compute in Hf. destruct Hf as [<-|[<-|[]]]; assumption. }
  split.
  - rewrite (@is_used_on_plain_paths "/work" lists_two "Foo" "src/a.ts"
               "src" _ eq_refl P1 eq_refl P). reflexivity.
  - rewrite (@is_used_on_plain_paths "/" lists_two "Widget" "src/lib/b.tsx"
               "src" _ eq_refl P2 eq_refl P). reflexivity.
Defined.

(** ** Other spellings of the defining file *)

Lemma abspath_dot_slash cwd d :
  startswith cwd "/" = true -> startswith d "/" = false ->
  abspath cwd ("./" ++ d) = abspath cwd d.
Proof.
  intros Hc Hd.
  rewrite (@abspath_relative cwd ("./" ++ d) Hc eq_refl).
  rewrite (@abspath_relative cwd d Hc Hd).
  change ("./" ++ d) with ("." ++ chr_slash :: d).
  rewrite split_on_app. reflexivity.
Qed.

(** X11: the defining file is recognised under another spelling of its
    path, because absolute paths are compared: a printed path that is the
    defining file with [./] in front does not count as a usage, so that a
    symbol which the search finds only there, in its defining file and in
    test files is "not used". *)
Theorem dotted_spelling_is_no_usage cwd search name definition_file
    directory output :
  startswith cwd "/" = true -> startswith definition_file "/" = false ->
  search name directory = Output output ->
  (forall f, In f (matched_files output) ->
             f = definition_file \/ f = "./" ++ definition_file
             \/ is_test_path f = true) ->
  is_used cwd search name definition_file directory = Ok false.
Proof.
  intros Hc Hd Hs Hf.
  apply (is_used_cases cwd search name definition_file directory).
  right. exists output. split; [exact Hs|].
  intros f Hin. destruct (Hf f Hin) as [->|[->|T]].
  - left. reflexivity.
  - left. apply abspath_dot_slash; assumption.
  - right. exact T.
Qed.

Lemma dotted_spelling_is_no_usage_witness :
  is_used "/work" lists_dotted "Foo" "src/a.ts" "./src" = Ok false.
Proof.
  apply (@dotted_spelling_is_no_usage "/work" lists_dotted "Foo" "src/a.ts"
           "./src" "./src/a.ts
"); try reflexivity.
  intros f Hf. vm_compute in Hf. destruct Hf as [<-|[]].
  right. left. reflexivity.
Defined.

(** ** White space around the output of the search *)

Lemma dropwhile_spaces f (w s : str) :
  forallb f w = true -> dropwhile f (w ++ s) = dropwhile f s.
Proof.
  induction w as [|c w IH]; intros H; [reflexivity|].
  cbn [forallb] in H. apply andb_true_iff in H as [Hc Hw].
  cbn [app dropwhile]. rewrite Hc. apply IH. exact Hw.
Qed.

Lemma rstrip_spaces (s w : str) :
  forallb is_space w = true -> rstrip (s ++ w) = rstrip s.
Proof.
  intros H. unfold rstrip. rewrite rev_app_distr.
  rewrite dropwhile_spaces; [reflexivity|].
  rewrite forallb_forall in *. intros c Hc. apply H.
  apply in_rev. exact Hc.
Qed.

Lemma strip_spaces_right (s w : str) :
  forallb is_space w = true -> strip (s ++ w) = strip s.
Proof.
  intros H. unfold strip, lstrip. induction s as [|c s IH].
  - cbn [app]. rewrite <- (app_nil_r w) at 1.
    rewrite dropwhile_spaces by exact H. reflexivity.
  - cbn [app dropwhile]. destruct (is_space c); [exact IH|].
    change (c :: s ++ w) with ((c :: s) ++ w).
    apply rstrip_spaces. exact H.
Qed.

Lemma strip_spaces (w1 s w2 : str) :
  forallb is_space w1 = true -> forallb is_space w2 = true ->
  strip (w1 ++ s ++ w2) = strip s.
Proof.
  intros H1 H2. rewrite <- (strip_spaces_right s w2 H2).
  unfold strip, lstrip. rewrite dropwhile_spaces by exact H1. reflexivity.
Qed.

(** X12: white space before and after the output of the search - blank
    lines, spaces, a missing or doubled final line break - changes
    nothing: the paths read from the output are the same and so is the
    answer of the check. *)
Theorem surrounding_white_space_is_ignored cwd s1 s2 name definition_file
    directory output w1 w2 :
  forallb is_space w1 = true -> forallb is_space w2 = true ->
  s1 name directory = Output output ->
  s2 name directory = Output (w1 ++ output ++ w2) ->
  matched_files (w1 ++ output ++ w2) = matched_files output
  /\ is_used cwd s2 name definition_file directory
     = is_used cwd s1 name definition_file directory.
Proof.
  intros H1 H2 E1 E2.
  assert (M : matched_files (w1 ++ output ++ w2) = matched_files output)
    by (unfold matched_files; rewrite strip_spaces by assumption;
        reflexivity).
  split; [exact M|].
  unfold is_used, usages_of. rewrite E1, E2.
  fold (matched_files (w1 ++ output ++ w2)). fold (matched_files output).
  rewrite M. reflexivity.
Qed.

Lemma surrounding_white_space_is_ignored_witness :
  matched_files ("
 " ++ "src/a.ts
src/lib/b.tsx" ++ "

") = ["src/a.ts"; "src/lib/b.tsx"].
Proof.
  apply (@surrounding_white_space_is_ignored "/work"
           (fun _ _ => Output "src/a.ts
src/lib/b.tsx")
           (fun _ _ => Output ("
 " ++ "src/a.ts
src/lib/b.tsx" ++ "

")) "Foo" "src/a.ts" "src" "src/a.ts
src/lib/b.tsx" "
 " "

"); reflexivity.
Defined.
